(** * plotroc: ROC analysis, partial AUC, PAV calibration, operating points

    A shallow embedding of [plotroc.py].  NumPy [float64] values are
    modelled by exact rationals ([Q]); rounding is abstracted, but the IEEE
    special values that NumPy produces on a division by zero ([nan],
    [inf]) are kept in the type [xQ], because control flow depends on
    them.  An array that may hold integers carries its element type
    ([PAV.dtype]), since storing a float into it truncates.  Python
    exceptions are values of [exn]; a function that falls off its end
    returns [None]. *)

From Stdlib Require String.
From Stdlib Require Import List ZArith QArith Qabs Lqa Lia Bool Arith Permutation.
Import ListNotations String.StringSyntax.
Local Open Scope string_scope.
Local Open Scope Q_scope.

(** ** Exceptions and the error monad *)

Inductive exn : Type :=
| ValueError (msg : String.string)
| IndexError
| UnboundLocalError
| ZeroDivisionError.

Inductive result (A : Type) : Type :=
| Ok (a : A)
| Raise (e : exn).
Arguments Ok {A} a.
Arguments Raise {A} e.

Definition bind {A B : Type} (m : result A) (k : A -> result B) : result B :=
  match m with
  | Ok a => k a
  | Raise e => Raise e
  end.

Notation "x <- m ;; k" := (bind m (fun x => k))
  (at level 61, m at next level, right associativity).

(** ** Array indexing as Python does it *)

(** [a[i]] for a non-negative index. *)
Definition getitem {A : Type} (a : list A) (i : nat) : result A :=
  match nth_error a i with
  | Some x => Ok x
  | None => Raise IndexError
  end.

(** [a[i]] for an integer index: a negative index counts from the end. *)
Definition getitemZ {A : Type} (a : list A) (i : Z) : result A :=
  if (0 <=? i)%Z then getitem a (Z.to_nat i)
  else if (- Z.of_nat (length a) <=? i)%Z
       then getitem a (Z.to_nat (Z.of_nat (length a) + i))
       else Raise IndexError.

(** ** Floating point values with IEEE specials *)

Inductive xQ : Type :=
| Fin (q : Q)
| PInf
| NInf
| NaN.

(** NumPy [float64] division: [x/0] is [nan] for [x = 0] and a signed
    infinity otherwise (with a warning, not an exception). *)
Definition xdiv (a b : Q) : xQ :=
  if Qeq_bool b 0 then
    if Qeq_bool a 0 then NaN
    else if Qle_bool 0 a then PInf else NInf
  else Fin (a / b).

Definition xsub (a b : xQ) : xQ :=
  match a, b with
  | NaN, _ | _, NaN => NaN
  | Fin x, Fin y => Fin (x - y)
  | PInf, PInf | NInf, NInf => NaN
  | PInf, _ | _, NInf => PInf
  | NInf, _ | _, PInf => NInf
  end.

Definition xadd (a b : xQ) : xQ :=
  match a, b with
  | NaN, _ | _, NaN => NaN
  | Fin x, Fin y => Fin (x + y)
  | PInf, NInf | NInf, PInf => NaN
  | PInf, _ | _, PInf => PInf
  | NInf, _ | _, NInf => NInf
  end.

Definition xabs (a : xQ) : xQ :=
  match a with
  | Fin x => Fin (Qabs x)
  | PInf | NInf => PInf
  | NaN => NaN
  end.

(** Comparisons: anything involving [nan] is false. *)
Definition Qlt_bool (a b : Q) : bool := negb (Qle_bool b a).

Definition xltb (a b : xQ) : bool :=
  match a, b with
  | NaN, _ | _, NaN => false
  | Fin x, Fin y => Qlt_bool x y
  | NInf, NInf | PInf, _ => false
  | NInf, _ => true
  | Fin _, PInf => true
  | Fin _, NInf => false
  end.

Definition xleb (a b : xQ) : bool :=
  match a, b with
  | NaN, _ | _, NaN => false
  | Fin x, Fin y => Qle_bool x y
  | NInf, _ => true
  | PInf, PInf => true
  | PInf, _ => false
  | Fin _, PInf => true
  | Fin _, NInf => false
  end.

(** ** Operating points: [neyman_pearson] *)

Module NeymanPearson.

(** An operating point [(fpr, tpr, thresh)]. *)
Definition point : Type := (Q * Q * Q)%type.

(** [for i, tpr_val in enumerate(tpr): if tpr_val >= min_rate: ... return]
    The scan carries the index [i]; when the list is exhausted the function
    falls off its end, which in Python returns [None]. *)
Fixpoint scan_Se (fpr thresh : list Q) (min_rate : Q) (i : nat) (tpr : list Q)
  : result (option point) :=
  match tpr with
  | [] => Ok None
  | tpr_val :: rest =>
      if Qle_bool min_rate tpr_val then
        np_fpr <- getitem fpr i ;;
        np_thresh <- getitem thresh i ;;
        Ok (Some (np_fpr, tpr_val, np_thresh))
      else scan_Se fpr thresh min_rate (S i) rest
  end.

(** [for i, tnr_val in enumerate(1-fpr): if tnr_val < min_rate: ...[i-1]] *)
Fixpoint scan_Sp (fpr tpr thresh : list Q) (min_rate : Q) (i : nat)
  (tnr : list Q) : result (option point) :=
  match tnr with
  | [] => Ok None
  | tnr_val :: rest =>
      if Qlt_bool tnr_val min_rate then
        np_fpr <- getitemZ fpr (Z.of_nat i - 1) ;;
        np_tpr <- getitemZ tpr (Z.of_nat i - 1) ;;
        np_thresh <- getitemZ thresh (Z.of_nat i - 1) ;;
        Ok (Some (np_fpr, np_tpr, np_thresh))
      else scan_Sp fpr tpr thresh min_rate (S i) rest
  end.

(** The locals [np_tpr = np_thresh = np_fpr = 0.0] are assigned first but
    no [return] follows either loop. *)
Definition neyman_pearson (fpr tpr thresh : list Q) (min_rate : Q) (Se : bool)
  : result (option point) :=
  if Se then scan_Se fpr thresh min_rate 0 tpr
  else scan_Sp fpr tpr thresh min_rate 0 (map (fun x => 1 - x) fpr).

(** The value the specification expects when nothing matches. *)
Definition sentinel : point := (0, 0, 0).

End NeymanPearson.

(** ** Area under the curve: [metrics.auc] and [partial_auc] *)

Module AUC.

(** [np.trapz(y, x)]: the sum of [(x[i+1]-x[i]) * (y[i+1]+y[i]) / 2]. *)
Fixpoint trapz (y x : list Q) : Q :=
  match x, y with
  | x0 :: ((x1 :: _) as xs), y0 :: ((y1 :: _) as ys) =>
      (x1 - x0) * (y1 + y0) / 2 + trapz ys xs
  | _, _ => 0
  end.

(** [np.diff(v)]: element [i] is [v[i+1] - v[i]]. *)
Definition diff (v : list Q) : list Q :=
  map (fun p => snd p - fst p) (combine v (tl v)).

(** Lexicographic order on points, as [np.lexsort((y, x))] sorts them:
    by [x], ties by [y]. *)
Definition lex_le (p q : Q * Q) : bool :=
  Qlt_bool (fst p) (fst q) || (Qeq_bool (fst p) (fst q) && Qle_bool (snd p) (snd q)).

Fixpoint insert_pt (p : Q * Q) (l : list (Q * Q)) : list (Q * Q) :=
  match l with
  | [] => [p]
  | q :: l' => if lex_le p q then p :: l else q :: insert_pt p l'
  end.

Definition lexsort (l : list (Q * Q)) : list (Q * Q) :=
  fold_right insert_pt [] l.

(** Modelled from the spec: [sklearn.metrics.auc(x, y, reorder)] is a library
    function outside the repository.  It is the trapezoidal integral of [y]
    over [x]; with [reorder] the points are first sorted by [x]; without it
    [x] must be monotone (a decreasing [x] flips the sign), and fewer than
    two points or arrays of different lengths are refused. *)
Definition metrics_auc (x y : list Q) (reorder : bool) : result Q :=
  if negb (length x =? length y)%nat then
    Raise (ValueError "Found input variables with inconsistent numbers of samples")
  else if (length x <? 2)%nat then
    Raise (ValueError "At least 2 points are needed to compute area under curve")
  else if reorder then
    let pts := lexsort (combine x y) in
    Ok (trapz (map snd pts) (map fst pts))
  else
    let dx := diff x in
    if existsb (fun d => Qlt_bool d 0) dx then
      if forallb (fun d => Qle_bool d 0) dx then Ok (- (1) * trapz y x)
      else Raise (ValueError "Reordering is not possible because x is neither increasing nor decreasing")
    else Ok (1 * trapz y x).

(** Elementwise product of an array with a boolean mask, with NumPy's
    broadcasting of one-element arrays. *)
Definition mul_mask (a : list Q) (m : list bool) : result (list Q) :=
  let f (x : Q) (b : bool) := if b then x * 1 else x * 0 in
  if (length a =? length m)%nat then Ok (map (fun p => f (fst p) (snd p)) (combine a m))
  else match a, m with
       | [x], _ => Ok (map (f x) m)
       | _, [b] => Ok (map (fun x => f x b) a)
       | _, _ => Raise (ValueError "operands could not be broadcast together")
       end.

(** [i=0; while tpr[i] < op1: i += 1]: running past the end raises. *)
Fixpoint scan_up (op1 : Q) (i : nat) (tpr : list Q) : result nat :=
  match tpr with
  | [] => Raise IndexError
  | t :: rest => if Qlt_bool t op1 then scan_up op1 (S i) rest else Ok i
  end.

(** [i=len(tpr)-1; while tpr[i] > op2: i -= 1], entered with [i = k-1].
    Below index 0 the negative indices [-1 .. -len] read the same elements
    once more, all of which are above [op2], and [tpr[-len-1]] raises. *)
Fixpoint scan_down (tpr : list Q) (op2 : Q) (k : nat) : result nat :=
  match k with
  | O => Raise IndexError
  | S i =>
      t <- getitem tpr i ;;
      if Qlt_bool op2 t then scan_down tpr op2 i else Ok i
  end.

Definition op_order : exn := ValueError "op1 must be less than op2".

(** The body of [partial_auc]; [self] stands for the recursive call, which
    the source makes with [Sp=True]. *)
Definition partial_auc_body (self : list Q -> list Q -> Q -> Q -> result Q)
  (fpr tpr : list Q) (op1 op2 : Q) (Sp : bool) : result Q :=
  if Qle_bool op2 op1 then Raise op_order
  else if Qlt_bool 0 op1 || Qlt_bool op2 1 then
    if Sp then
      let op1 := 1 - op1 in
      let op2 := 1 - op2 in
      let mask1 := map (fun f => Qle_bool op2 f) fpr in
      let mask2 := map (fun f => Qle_bool f op1) fpr in
      let mask := map (fun p => andb (fst p) (snd p)) (combine mask1 mask2) in
      fpr' <- mul_mask fpr mask ;;
      tpr' <- mul_mask tpr mask ;;
      metrics_auc fpr' tpr' true
    else
      i <- scan_up op1 0 tpr ;;
      f2 <- getitem fpr i ;;
      let Sp2 := 1 - f2 in
      j <- scan_down tpr op2 (length tpr) ;;
      f1 <- getitem fpr j ;;
      let Sp1 := 1 - f1 in
      p_auc <- self fpr tpr Sp1 Sp2 ;;
      Ok (p_auc + (((op2 - op1) * Sp1) - ((Sp2 - Sp1) * op1)))
  else metrics_auc fpr tpr false.

(** The call with [Sp=True] never recurses. *)
Definition partial_auc_vertical (fpr tpr : list Q) (op1 op2 : Q) : result Q :=
  partial_auc_body (fun _ _ _ _ => Raise op_order) fpr tpr op1 op2 true.

Definition partial_auc (fpr tpr : list Q) (op1 op2 : Q) (Sp : bool) : result Q :=
  partial_auc_body partial_auc_vertical fpr tpr op1 op2 Sp.

(** The specification's [full_auc]: the trapezoidal integral of [tpr] over
    [fpr]. *)
Fixpoint full_auc_spec (curve : list (Q * Q)) : Q :=
  match curve with
  | (f0, t0) :: (((f1, t1) :: _) as rest) =>
      (f1 - f0) * (t0 + t1) / 2 + full_auc_spec rest
  | _ => 0
  end.

(** Curve invariants of the data model that integration relies on. *)
Fixpoint nondecreasing (l : list Q) : Prop :=
  match l with
  | a :: ((b :: _) as rest) => a <= b /\ nondecreasing rest
  | _ => True
  end.

End AUC.

(** ** Isotonic calibration: [pav_rocch] *)

Module PAV.

(** The element type of a NumPy array.  [v = y.copy()] keeps the type of
    [target]; a float stored into an integer array is truncated. *)
Inductive dtype : Type := int64 | float64.

(** Truncation toward zero. *)
Definition Qtrunc (x : Q) : Z := Z.quot (Qnum x) (Zpos (Qden x)).

(** The value an array of type [dt] holds after [a[i] = x]. *)
Definition cast (dt : dtype) (x : Q) : Q :=
  match dt with
  | float64 => x
  | int64 => inject_Z (Qtrunc x)
  end.

(** [a[i] = x]. *)
Fixpoint setitem {A : Type} (a : list A) (i : nat) (x : A) : result (list A) :=
  match a, i with
  | [], _ => Raise IndexError
  | _ :: rest, O => Ok (x :: rest)
  | y :: rest, S i' => r <- setitem rest i' x ;; Ok (y :: r)
  end.

(** [np.argsort(score)]: indices that sort [score] ascending, here by
    insertion, equal scores staying in their input order. *)
Fixpoint insert_idx (score : list Q) (i : nat) (l : list nat) : list nat :=
  match l with
  | [] => [i]
  | j :: l' =>
      if Qlt_bool (nth i score 0) (nth j score 0) then i :: l
      else j :: insert_idx score i l'
  end.

Definition argsort (score : list Q) : list nat :=
  fold_left (fun acc i => insert_idx score i acc) (seq 0 (length score)) [].

(** [target[s_ind]]. *)
Fixpoint take (target : list Q) (s_ind : list nat) : result (list Q) :=
  match s_ind with
  | [] => Ok []
  | i :: rest => x <- getitem target i ;; r <- take target rest ;; Ok (x :: r)
  end.

(** [np.where(deriv < 0)[0]], indices counted from [i]. *)
Fixpoint where_neg (i : nat) (deriv : list Q) : list nat :=
  match deriv with
  | [] => []
  | d :: rest =>
      if Qlt_bool d 0 then i :: where_neg (S i) rest else where_neg (S i) rest
  end.

(** The loop state: the values [v] and the level set [(first, last)] each
    index belongs to. *)
Record state : Type := mkState {
  v : list Q;
  lvlsets : list (nat * nat)
}.

(** [range(start, last + 1)]. *)
Definition range (start last : nat) : list nat :=
  seq start (last + 1 - start).

(** [for i in range(start, last + 1): s += v[i]] *)
Fixpoint sum_range (v : list Q) (idx : list nat) (s : Q) : result Q :=
  match idx with
  | [] => Ok s
  | i :: rest => x <- getitem v i ;; sum_range v rest (s + x)
  end.

(** [for i in range(start, last + 1): v[i] = val; lvlsets[i] = (start, last)] *)
Fixpoint assign_range (dt : dtype) (val : Q) (start last : nat)
  (idx : list nat) (st : state) : result state :=
  match idx with
  | [] => Ok st
  | i :: rest =>
      v' <- setitem (v st) i (cast dt val) ;;
      l' <- setitem (lvlsets st) i (start, last) ;;
      assign_range dt val start last rest (mkState v' l')
  end.

(** One pass through the body of [while flag:].  [None] is [break]. *)
Definition pool (dt : dtype) (st : state) : result (option state) :=
  let deriv := AUC.diff (v st) in
  if forallb (fun d => Qle_bool 0 d) deriv then Ok None
  else
    let viol := where_neg 0 deriv in
    viol0 <- getitem viol 0 ;;
    r1 <- getitem (lvlsets st) viol0 ;;
    let start := fst r1 in
    r2 <- getitem (lvlsets st) (viol0 + 1) ;;
    let last := snd r2 in
    let n := (Z.of_nat last - Z.of_nat start + 1)%Z in
    s <- sum_range (v st) (range start last) 0 ;;
    let val := s / inject_Z n in
    st' <- assign_range dt val start last (range start last) st ;;
    Ok (Some st').

(** The [while] loop, run for at most [fuel] passes; [None] means the
    loop has not left yet. *)
Fixpoint pav_while (fuel : nat) (dt : dtype) (st : state)
  : result (option state) :=
  match fuel with
  | O => Ok None
  | S fuel' =>
      r <- pool dt st ;;
      match r with
      | None => Ok (Some st)
      | Some st' => pav_while fuel' dt st'
      end
  end.

(** The state on entry to the loop: [v = y.copy()], singleton level sets. *)
Definition init (y : list Q) : state :=
  mkState y (map (fun i => (i, i)) (seq 0 (length y))).

Definition pav_rocch (fuel : nat) (dt : dtype) (target score : list Q)
  : result (option (list Q * list Q)) :=
  let s_ind := argsort score in
  t <- take target s_ind ;;
  y <- take target s_ind ;;
  r <- pav_while fuel dt (init y) ;;
  match r with
  | None => Ok None
  | Some st => Ok (Some (t, v st))
  end.

(** [k] pooling passes lead from one state to another. *)
Inductive pools (dt : dtype) : nat -> state -> state -> Prop :=
| pools_O (st : state) : pools dt O st st
| pools_S (k : nat) (st st' st'' : state) :
    pool dt st = Ok (Some st') -> pools dt k st' st'' ->
    pools dt (S k) st st''.

Definition eq_lvl (a b : nat * nat) : {a = b} + {a <> b}.
Proof. decide equality; apply Nat.eq_dec. Defined.

(** The number of distinct level sets. *)
Definition nlevels (st : state) : nat := length (nodup eq_lvl (lvlsets st)).

(** Sum of squared errors of [w] against [y]. *)
Fixpoint sse (y w : list Q) : Q :=
  match y, w with
  | a :: y', b :: w' => (a - b) * (a - b) + sse y' w'
  | _, _ => 0
  end.

End PAV.

(** ** Level sets as blocks, and what makes a block an isotonic fit *)

(** A level set seen from outside the arrays: the original values it
    pools and the value [v] holds on it. *)
Definition block : Type := (list Q * Q)%type.

Definition size (b : block) : nat := length (fst b).

Definition total (bs : list block) : nat := length (flat_map fst bs).

(** The array [v] that a sequence of blocks stands for. *)
Definition conc_v (bs : list block) : list Q :=
  flat_map (fun b => repeat (snd b) (size b)) bs.

(** The array [lvlsets], for blocks laid out from index [off] on. *)
Fixpoint conc_l (off : nat) (bs : list block) : list (nat * nat) :=
  match bs with
  | [] => []
  | b :: bs' =>
      repeat (off, off + size b - 1)%nat (size b) ++ conc_l (off + size b) bs'
  end.

Definition nonempty (b : block) : Prop := (0 < size b)%nat.

Definition represents (bs : list block) (st : PAV.state) : Prop :=
  PAV.v st = conc_v bs /\ PAV.lvlsets st = conc_l 0 bs /\ Forall nonempty bs.

(** The block that replaces two adjacent blocks. *)
Definition pooled (dt : PAV.dtype) (A B : block) : block :=
  (fst A ++ fst B,
   PAV.cast dt (fold_left Qplus (repeat (snd A) (size A) ++ repeat (snd B) (size B)) 0 /
            inject_Z (Z.of_nat (size A + size B)))).

(** The blocks of the initial state are the singletons. *)
Definition singletons (y : list Q) : list block := map (fun a => ([a], a)) y.

(** The sum of a list. *)
Fixpoint qsum (l : list Q) : Q :=
  match l with
  | [] => 0
  | a :: l' => a + qsum l'
  end.

(** [S] plus the sum of [y - c] over [ys]: what the block is above its
    level [c] after all of [ys], starting from [S]. *)
Fixpoint excess (c S : Q) (ys : list Q) : Q :=
  match ys with
  | [] => S
  | y :: ys' => excess c (S + y - c) ys'
  end.

(** No prefix of [ys] has a mean below the level [c]. *)
Fixpoint prefix_ok (c S : Q) (ys : list Q) : Prop :=
  0 <= S /\
  match ys with
  | [] => True
  | y :: ys' => prefix_ok c (S + y - c) ys'
  end.

(** A pooled block: its level is the mean of its values, and every
    prefix of it has a mean no smaller. *)
Definition iso_block (b : block) : Prop :=
  prefix_ok (snd b) 0 (fst b) /\ excess (snd b) 0 (fst b) == 0.

(** The cross term of the two squared errors. *)
Fixpoint cross (y u w : list Q) : Q :=
  match y, u, w with
  | a :: y', b :: u', c :: w' => (a - b) * (b - c) + cross y' u' w'
  | _, _, _ => 0
  end.

(** [x <= w1 <= ... <= wn <= z]. *)
Fixpoint between (x : Q) (ws : list Q) (z : Q) : Prop :=
  match ws with
  | [] => x <= z
  | w :: ws' => x <= w /\ between w ws' z
  end.

Definition qlen (l : list Q) : Q := inject_Z (Z.of_nat (length l)).

(** The scores read in the order of the indices [l]. *)
Definition in_order (score : list Q) (l : list nat) : list Q :=
  map (fun i => nth i score 0) l.

(** ** Reliability curve: [reliability_curve] *)

Module Reliability.

(** [a.min()] and [a.max()]; an empty array has neither. *)
Definition amin (a : list Q) : result Q :=
  match a with
  | [] => Raise (ValueError "zero-size array to reduction operation minimum which has no identity")
  | x :: rest => Ok (fold_left (fun m y => if Qlt_bool y m then y else m) rest x)
  end.

Definition amax (a : list Q) : result Q :=
  match a with
  | [] => Raise (ValueError "zero-size array to reduction operation maximum which has no identity")
  | x :: rest => Ok (fold_left (fun m y => if Qlt_bool m y then y else m) rest x)
  end.

(** [(y_score - y_score.min()) / (y_score.max() - y_score.min())] *)
Definition normalized (y_score : list Q) : result (list xQ) :=
  mn <- amin y_score ;;
  mx <- amax y_score ;;
  mn' <- amin y_score ;;
  Ok (map (fun y => xdiv (y - mn) (mx - mn')) y_score).

(** [np.linspace(start, stop, num)]: [num] evenly spaced samples, the last
    one set to [stop]. *)
Definition linspace (start stop : Q) (num : nat) : list Q :=
  let step := (stop - start) / inject_Z (Z.of_nat num - 1) in
  let y := map (fun i => inject_Z (Z.of_nat i) * step + start) (seq 0 num) in
  if (1 <? num)%nat then removelast y ++ [stop] else y.

(** [a[mask]] for a boolean mask of the array's length. *)
Definition select {A : Type} (a : list A) (mask : list bool) : result (list A) :=
  if (length a =? length mask)%nat
  then Ok (map fst (filter snd (combine a mask)))
  else Raise IndexError.

Definition count_nonzero (mask : list bool) : nat :=
  length (filter (fun b => b) mask).

(** [a.mean()] of a float array and of the label array. *)
Definition xmean (a : list xQ) : xQ :=
  match fold_left xadd a (Fin 0) with
  | Fin s => xdiv s (inject_Z (Z.of_nat (length a)))
  | other => other
  end.

Definition mean (a : list Q) : Q :=
  fold_left Qplus a 0 / inject_Z (Z.of_nat (length a)).

(** Membership of the bin centred at [threshold]:
    [threshold - bin_width/2 < y_score <= threshold + bin_width/2]. *)
Definition in_bin (bin_width threshold : Q) (y : xQ) : bool :=
  xltb (Fin (threshold - bin_width / 2)) y && xleb y (Fin (threshold + bin_width / 2)).

Definition bin_centers (bins : nat) (bin_width : Q) : list Q :=
  map (fun c => c + bin_width / 2) (linspace 0 (1 - bin_width) bins).

(** The two outputs of one bin. *)
Definition bin_outputs (y_true : list Q) (y_score : list xQ) (bin_width threshold : Q)
  : result (xQ * Q) :=
  let bin_idx := map (in_bin bin_width threshold) y_score in
  if (count_nonzero bin_idx =? 0)%nat then Ok (Fin 0, 0)
  else
    sc <- select y_score bin_idx ;;
    tr <- select y_true bin_idx ;;
    Ok (xmean sc, mean tr).

Fixpoint bins_loop (y_true : list Q) (y_score : list xQ) (bin_width : Q)
  (centers : list Q) : result (list xQ * list Q) :=
  match centers with
  | [] => Ok ([], [])
  | threshold :: rest =>
      o <- bin_outputs y_true y_score bin_width threshold ;;
      r <- bins_loop y_true y_score bin_width rest ;;
      Ok (fst o :: fst r, snd o :: snd r)
  end.

Definition reliability_curve (y_true y_score : list Q) (bins : nat)
  (normalize : bool) : result (list xQ * list Q) :=
  y_score' <- (if normalize then normalized y_score else Ok (map Fin y_score)) ;;
  if (bins =? 0)%nat then Raise ZeroDivisionError
  else
    let bin_width := 1 / inject_Z (Z.of_nat bins) in
    bins_loop y_true y_score' bin_width (bin_centers bins bin_width).

(** A value is a number: neither [nan] nor infinite. *)
Definition finite (x : xQ) : Prop :=
  match x with Fin _ => True | _ => False end.

Definition is_nan (x : xQ) : bool :=
  match x with NaN => true | _ => false end.

End Reliability.

(** ** Youden's J: [max_youden_J] *)

Module Youden.

(** The locals of the scan.  [Jfpr] has no initial value. *)
Record locals : Type := mkLocals {
  Jval : Q;
  Jtpr : Q;
  Jtnr : Q;
  Jthresh : Q;
  Jfpr : option Q
}.

Definition start : locals := mkLocals 0 0 0 0 None.

(** The body of [for i in range(len(tpr))]. *)
Definition step (fpr tpr thresh : list Q) (st : locals) (i : nat) : result locals :=
  tpr_i <- getitem tpr i ;;
  fpr_i <- getitem fpr i ;;
  let tnr_i := 1 - fpr_i in
  if Qlt_bool (Jval st) (tpr_i + tnr_i - 1) then
    th_i <- getitem thresh i ;;
    Ok (mkLocals (tnr_i + tpr_i - 1) tpr_i tnr_i th_i (Some fpr_i))
  else Ok st.

Fixpoint loop (fpr tpr thresh : list Q) (idx : list nat) (st : locals)
  : result locals :=
  match idx with
  | [] => Ok st
  | i :: rest => st' <- step fpr tpr thresh st i ;; loop fpr tpr thresh rest st'
  end.

Definition max_youden_J (fpr tpr thresh : list Q) : result (Q * Q * Q * Q) :=
  st <- loop fpr tpr thresh (seq 0 (length tpr)) start ;;
  match Jfpr st with
  | None => Raise UnboundLocalError
  | Some f => Ok (Jval st, f, Jtpr st, Jthresh st)
  end.

(** Youden's J of point [i]: [tpr[i] + (1 - fpr[i]) - 1]. *)
Definition J (fpr tpr : list Q) (i : nat) : Q :=
  nth i tpr 0 + (1 - nth i fpr 0) - 1.

(** What the locals hold after the points before [m] have been seen:
    either nothing was accepted and no J was positive, or they hold the
    first point of maximal (positive) J. *)
Definition seen (fpr tpr thresh : list Q) (m : nat) (st : locals) : Prop :=
  (st = start /\ forall j, (j < m)%nat -> J fpr tpr j <= 0) \/
  (exists k, (k < m)%nat /\
     Jfpr st = Some (nth k fpr 0) /\ Jtpr st = nth k tpr 0 /\
     Jthresh st = nth k thresh 0 /\ Jval st == J fpr tpr k /\
     0 < J fpr tpr k /\
     (forall j, (j < m)%nat -> J fpr tpr j <= J fpr tpr k) /\
     (forall j, (j < k)%nat -> J fpr tpr j < J fpr tpr k)).

End Youden.

(** ** Predictive values: [best_ppv] and [best_npv] *)

Module Predictive.

(** The locals of either scan: the best value and its distance to the
    target are initialised, the operating point is not. *)
Record locals : Type := mkLocals {
  best : xQ;
  best_diff : xQ;
  best_pt : option (Q * Q * Q)
}.

Definition start : locals := mkLocals (Fin 0) (Fin 1) None.

(** [ppv[i]] for a point with [tpr_val != 0]. *)
Definition ppv_of (Nn Np fpr_i tpr_val : Q) : xQ :=
  xdiv (tpr_val * Np) ((tpr_val * Np) + (fpr_i * Nn)).

(** [npv[i]] for a point with [tnr_val != 0]. *)
Definition npv_of (Nn Np tnr_val fnr_i : Q) : xQ :=
  xdiv (tnr_val * Nn) ((tnr_val * Nn) + (fnr_i * Np)).

Definition ppv_step (fpr tpr thresh : list Q) (Nn Np target_ppv : Q)
  (st : locals) (i : nat) : result locals :=
  tpr_val <- getitem tpr i ;;
  if Qeq_bool tpr_val 0 then Ok st
  else
    fpr_i <- getitem fpr i ;;
    let ppv_i := ppv_of Nn Np fpr_i tpr_val in
    let diff := xabs (xsub (Fin target_ppv) ppv_i) in
    if xleb diff (best_diff st) then
      th_i <- getitem thresh i ;;
      Ok (mkLocals ppv_i diff (Some (fpr_i, tpr_val, th_i)))
    else Ok st.

Definition npv_step (fpr tpr thresh : list Q) (Nn Np target_npv : Q)
  (st : locals) (i : nat) : result locals :=
  fpr_i <- getitem fpr i ;;
  let tnr_val := 1 - fpr_i in
  if Qeq_bool tnr_val 0 then Ok st
  else
    tpr_i <- getitem tpr i ;;
    let fnr_i := 1 - tpr_i in
    let npv_i := npv_of Nn Np tnr_val fnr_i in
    let diff := xabs (xsub (Fin target_npv) npv_i) in
    if xltb diff (best_diff st) then
      th_i <- getitem thresh i ;;
      Ok (mkLocals npv_i diff (Some (fpr_i, tpr_i, th_i)))
    else Ok st.

Fixpoint loop (step : locals -> nat -> result locals) (idx : list nat)
  (st : locals) : result locals :=
  match idx with
  | [] => Ok st
  | i :: rest => st' <- step st i ;; loop step rest st'
  end.

Definition finish (st : locals) : result (xQ * Q * Q * Q) :=
  match best_pt st with
  | None => Raise UnboundLocalError
  | Some (f, t, th) => Ok (best st, f, t, th)
  end.

Definition best_ppv (fpr tpr thresh : list Q) (Nn Np target_ppv : Q)
  : result (xQ * Q * Q * Q) :=
  st <- loop (ppv_step fpr tpr thresh Nn Np target_ppv) (seq 0 (length tpr)) start ;;
  finish st.

Definition best_npv (fpr tpr thresh : list Q) (Nn Np target_npv : Q)
  : result (xQ * Q * Q * Q) :=
  st <- loop (npv_step fpr tpr thresh Nn Np target_npv) (seq 0 (length fpr)) start ;;
  finish st.

(** PPV and NPV of point [i], as the loops compute them. *)
Definition ppv (fpr tpr : list Q) (Nn Np : Q) (i : nat) : Q :=
  (nth i tpr 0 * Np) / ((nth i tpr 0 * Np) + (nth i fpr 0 * Nn)).

Definition npv (fpr tpr : list Q) (Nn Np : Q) (i : nat) : Q :=
  ((1 - nth i fpr 0) * Nn) / (((1 - nth i fpr 0) * Nn) + ((1 - nth i tpr 0) * Np)).

(** The distance of a point's PPV, or NPV, to the target. *)
Definition ppv_dist (fpr tpr : list Q) (Nn Np target_ppv : Q) (i : nat) : Q :=
  Qabs (target_ppv - ppv fpr tpr Nn Np i).

Definition npv_dist (fpr tpr : list Q) (Nn Np target_npv : Q) (i : nat) : Q :=
  Qabs (target_npv - npv fpr tpr Nn Np i).

(** The locals after the points before [m]: nothing accepted and no
    candidate seen, or the last candidate of least distance. *)
Definition ppv_seen (fpr tpr thresh : list Q) (Nn Np target_ppv : Q)
  (m : nat) (st : locals) : Prop :=
  (st = start /\ forall j, (j < m)%nat -> nth j tpr 0 == 0) \/
  (exists k, (k < m)%nat /\ 0 < nth k tpr 0 /\
     best st = Fin (ppv fpr tpr Nn Np k) /\ best_diff st = Fin (ppv_dist fpr tpr Nn Np target_ppv k) /\
     best_pt st = Some (nth k fpr 0, nth k tpr 0, nth k thresh 0) /\
     (forall j, (j < m)%nat -> 0 < nth j tpr 0 -> ppv_dist fpr tpr Nn Np target_ppv k <= ppv_dist fpr tpr Nn Np target_ppv j) /\
     (forall j, (k < j < m)%nat -> 0 < nth j tpr 0 -> ppv_dist fpr tpr Nn Np target_ppv k < ppv_dist fpr tpr Nn Np target_ppv j)).

(** The locals after the points before [m]: nothing accepted because no
    candidate was closer than 1, or the first candidate of least
    distance. *)
Definition npv_seen (fpr tpr thresh : list Q) (Nn Np target_npv : Q)
  (m : nat) (st : locals) : Prop :=
  (st = start /\ forall j, (j < m)%nat -> nth j fpr 0 < 1 -> 1 <= npv_dist fpr tpr Nn Np target_npv j) \/
  (exists k, (k < m)%nat /\ nth k fpr 0 < 1 /\
     best st = Fin (npv fpr tpr Nn Np k) /\ best_diff st = Fin (npv_dist fpr tpr Nn Np target_npv k) /\
     best_pt st = Some (nth k fpr 0, nth k tpr 0, nth k thresh 0) /\
     npv_dist fpr tpr Nn Np target_npv k < 1 /\
     (forall j, (j < m)%nat -> nth j fpr 0 < 1 -> npv_dist fpr tpr Nn Np target_npv k <= npv_dist fpr tpr Nn Np target_npv j) /\
     (forall j, (j < k)%nat -> nth j fpr 0 < 1 -> npv_dist fpr tpr Nn Np target_npv k < npv_dist fpr tpr Nn Np target_npv j)).

End Predictive.

(** ** Arithmetic on floats with specials *)

(** The sign of a rational: [-1], [0] or [1]. *)
Definition Qsign (q : Q) : Z := Z.sgn (Qnum q).

(** NumPy [float64] product; [0 * inf] is [nan].  (Signed zeros are not
    modelled: a zero counts as positive.) *)
Definition xmul (a b : xQ) : xQ :=
  match a, b with
  | NaN, _ | _, NaN => NaN
  | Fin x, Fin y => Fin (x * y)
  | Fin x, PInf | PInf, Fin x =>
      match Qsign x with Z0 => NaN | Zpos _ => PInf | Zneg _ => NInf end
  | Fin x, NInf | NInf, Fin x =>
      match Qsign x with Z0 => NaN | Zpos _ => NInf | Zneg _ => PInf end
  | PInf, PInf | NInf, NInf => PInf
  | PInf, NInf | NInf, PInf => NInf
  end.

(** NumPy [float64] quotient of two floats. *)
Definition xquot (a b : xQ) : xQ :=
  match a, b with
  | NaN, _ | _, NaN => NaN
  | Fin x, Fin y => xdiv x y
  | Fin _, (PInf | NInf) => Fin 0
  | (PInf | NInf), (PInf | NInf) => NaN
  | PInf, Fin y => match Qsign y with Zneg _ => NInf | _ => PInf end
  | NInf, Fin y => match Qsign y with Zneg _ => PInf | _ => NInf end
  end.

(** ** Decision threshold: [decision_threshold] *)

Module Threshold.

(** [for i, t_val in enumerate(thresh): if t_val <= dec_t: return ...];
    the loop running out returns [None]. *)
Fixpoint scan (fpr tpr : list Q) (dec_t : Q) (i : nat) (thresh : list Q)
  : result (option (Q * Q * Q)) :=
  match thresh with
  | [] => Ok None
  | t_val :: rest =>
      if Qle_bool t_val dec_t then
        f <- getitem fpr i ;;
        t <- getitem tpr i ;;
        Ok (Some (f, t, t_val))
      else scan fpr tpr dec_t (S i) rest
  end.

Definition decision_threshold (fpr tpr thresh : list Q) (dec_t : Q)
  : result (option (Q * Q * Q)) :=
  scan fpr tpr dec_t 0 thresh.

End Threshold.

(** ** Chi-square statistic: [chi_sqr_val] *)

Module ChiSquare.

(** The offset [0.000001] added to every expected count. *)
Definition eps : Q := 1 # 1000000.

(** [((o - e)**2) / e] for an observed count [o] and expected count [e]. *)
Definition term (o : Q) (e : xQ) : xQ :=
  let d := xsub (Fin o) e in xquot (xmul d d) e.

(** [(r * N) / (Nn + Np) + 0.000001] *)
Definition expected (r N Nn Np : Q) : xQ :=
  xadd (xdiv (r * N) (Nn + Np)) (Fin eps).

(** The same two quantities when no special value arises. *)
Definition term_q (o e : Q) : Q := (o - e) * (o - e) / e.

Definition expected_q (r N Nn Np : Q) : Q := r * N / (Nn + Np) + eps.

(** The operands are NumPy floats, as in the call from [plot_roc], so a
    zero denominator gives [nan] or [inf], not an exception. *)
Definition chi_sqr_val (tpr fpr Nn Np : Q) : xQ :=
  let fn := (1 - tpr) * Np in
  let tn := (1 - fpr) * Nn in
  let tp := tpr * Np in
  let fp := fpr * Nn in
  let rp := fp + tp in
  let rn := tn + fn in
  let etn := expected rn Nn Nn Np in
  let etp := expected rp Np Nn Np in
  let efn := expected rn Np Nn Np in
  let efp := expected rp Nn Nn Np in
  xadd (xadd (xadd (term tn etn) (term tp etp)) (term fn efn)) (term fp efp).

End ChiSquare.

(** ** Standard error of the AUC: [sew_auc] *)

Module Variance.

(** [AUC] is a NumPy float (the value of [metrics.auc]); the sample
    counts are integers. *)
Definition sew_auc (AUC nn np : Q) : xQ :=
  let Q1 := xdiv AUC (2 - AUC) in
  let Q2 := xdiv (2 * (AUC * AUC)) (1 + AUC) in
  let sq := Fin (AUC * AUC) in
  xquot
    (xadd (xadd (Fin (AUC * (1 - AUC)))
                (xmul (Fin (np - 1)) (xsub Q1 sq)))
          (xmul (Fin (nn - 1)) (xsub Q2 sq)))
    (Fin (nn * np)).

End Variance.

(** ** Bayes error: [bayes_error] *)

Module Bayes.

(** The locals of the scan.  They start as Python floats [0.0];
    [from_array] records that they now hold elements of the NumPy arrays,
    which decides what a later division by zero does. *)
Record locals : Type := mkLocals {
  BAcc : Q;
  Btpr : Q;
  Btnr : Q;
  Bthresh : Q;
  from_array : bool
}.

Definition start : locals := mkLocals 0 0 0 0 false.

(** The body of [for i in range(len(tpr))], on the arrays of counts
    [tpr*Np] and [(1 - fpr)*Nn]. *)
Definition step (tp tn thresh : list Q) (st : locals) (i : nat) : result locals :=
  tp_i <- getitem tp i ;;
  tn_i <- getitem tn i ;;
  if Qlt_bool (BAcc st) (tp_i + tn_i) then
    th_i <- getitem thresh i ;;
    Ok (mkLocals (tn_i + tp_i) tp_i tn_i th_i true)
  else Ok st.

Fixpoint loop (tp tn thresh : list Q) (idx : list nat) (st : locals)
  : result locals :=
  match idx with
  | [] => Ok st
  | i :: rest => st' <- step tp tn thresh st i ;; loop tp tn thresh rest st'
  end.

(** [a / b]: a NumPy float divided by zero is [nan] or [inf], a Python
    float divided by zero raises. *)
Definition divide (numpy : bool) (a b : Q) : result xQ :=
  if numpy then Ok (xdiv a b)
  else if Qeq_bool b 0 then Raise ZeroDivisionError
  else Ok (Fin (a / b)).

Definition bayes_error (fpr tpr thresh : list Q) (Nn Np : Q)
  : result (xQ * xQ * xQ * Q) :=
  let tp := map (fun t => t * Np) tpr in
  let tn := map (fun f => (1 - f) * Nn) fpr in
  st <- loop tp tn thresh (seq 0 (length tp)) start ;;
  q <- divide (from_array st) (BAcc st) (Nn + Np) ;;
  let Berror := xsub (Fin 1) q in
  Btpr' <- divide (from_array st) (Btpr st) Np ;;
  Btnr' <- divide (from_array st) (Btnr st) Nn ;;
  let Bfpr := xsub (Fin 1) Btnr' in
  Ok (Berror, Bfpr, Btpr', Bthresh st).

(** The number of correct decisions at point [i], and the error rate. *)
Definition correct (fpr tpr : list Q) (Nn Np : Q) (i : nat) : Q :=
  nth i tpr 0 * Np + (1 - nth i fpr 0) * Nn.

Definition error_rate (fpr tpr : list Q) (Nn Np : Q) (i : nat) : Q :=
  1 - correct fpr tpr Nn Np i / (Nn + Np).

(** What the locals hold after the points before [m]. *)
Definition seen (fpr tpr thresh : list Q) (Nn Np : Q) (m : nat) (st : locals)
  : Prop :=
  (st = start /\ forall j, (j < m)%nat -> correct fpr tpr Nn Np j <= 0) \/
  (exists k, (k < m)%nat /\
     from_array st = true /\
     Btpr st = nth k tpr 0 * Np /\ Btnr st = (1 - nth k fpr 0) * Nn /\
     Bthresh st = nth k thresh 0 /\ BAcc st == correct fpr tpr Nn Np k /\
     0 < correct fpr tpr Nn Np k /\
     (forall j, (j < m)%nat -> correct fpr tpr Nn Np j <= correct fpr tpr Nn Np k) /\
     (forall j, (j < k)%nat -> correct fpr tpr Nn Np j < correct fpr tpr Nn Np k)).

End Bayes.

(** ** Platt's targets: the first part of [sigmoid_fit] *)

Module Platt.

(** [prior0 = float(np.sum(y <= 0))], [prior1 = y.shape[0] - prior0]. *)
Definition prior0 (y : list Q) : Q :=
  inject_Z (Z.of_nat (length (filter (fun a => Qle_bool a 0) y))).

Definition prior1 (y : list Q) : Q :=
  inject_Z (Z.of_nat (length y)) - prior0 y.

(** [T[y > 0] = (prior1 + 1.) / (prior1 + 2.)],
    [T[y <= 0] = 1. / (prior0 + 2.)]. *)
Definition targets (y : list Q) : list Q :=
  map (fun a => if Qle_bool a 0 then 1 / (prior0 y + 2)
                else (prior1 y + 1) / (prior1 y + 2)) y.

End Platt.

(** ** Sample inputs *)

Module Examples.

(** A five-point curve with two points of PPV 1 and two points of NPV 1. *)
Definition roc_fpr : list Q := [0; 0; 0; 1 # 2; 1].
Definition roc_tpr : list Q := [0; 1 # 2; 1; 1; 1].
Definition roc_thresh : list Q := [3; 2; 1; 1 # 2; 0].

(** The chance diagonal. *)
Definition diag_fpr : list Q := [0; 1 # 2; 1].
Definition diag_tpr : list Q := [0; 1 # 2; 1].
Definition diag_thresh : list Q := [2; 1; 0].

End Examples.

(** * Properties *)

(** ** Comparisons *)

Lemma Qlt_bool_iff (a b : Q) : Qlt_bool a b = true <-> a < b.
Proof.
  unfold Qlt_bool. rewrite negb_true_iff.
  destruct (Qle_bool b a) eqn:E.
  - apply Qle_bool_iff in E. split; [discriminate | intro H; exfalso; lra].
  - split; [intros _ | reflexivity].
    destruct (Qlt_le_dec a b) as [H | H]; [exact H |].
    apply Qle_bool_iff in H. congruence.
Qed.

Lemma Qlt_bool_false_iff (a b : Q) : Qlt_bool a b = false <-> b <= a.
Proof.
  unfold Qlt_bool. rewrite negb_false_iff. apply Qle_bool_iff.
Qed.

Lemma Qle_bool_false_iff (a b : Q) : Qle_bool a b = false <-> b < a.
Proof.
  rewrite <- Qlt_bool_iff. unfold Qlt_bool.
  destruct (Qle_bool a b); simpl; split; congruence.
Qed.

Lemma Qeq_bool_false_iff (a b : Q) : Qeq_bool a b = false <-> ~ a == b.
Proof.
  split.
  - intros E H. apply Qeq_bool_iff in H. congruence.
  - intro H. destruct (Qeq_bool a b) eqn:E; [| reflexivity].
    apply Qeq_bool_iff in E. contradiction.
Qed.

(** ** [neyman_pearson] *)

Section NeymanPearsonFacts.
Import NeymanPearson.

Variables (fpr tpr thresh : list Q) (min_rate : Q).

Lemma scan_Se_unreachable (l : list Q) (i : nat) :
  Forall (fun t => t < min_rate) l ->
  scan_Se fpr thresh min_rate i l = Ok None.
Proof.
  intro H. revert i. induction H as [| t l Ht _ IH]; intro i; simpl.
  - reflexivity.
  - apply Qle_bool_false_iff in Ht. rewrite Ht. apply IH.
Qed.

Lemma scan_Sp_unreachable (l : list Q) (i : nat) :
  Forall (fun t => min_rate <= t) l ->
  scan_Sp fpr tpr thresh min_rate i l = Ok None.
Proof.
  intro H. revert i. induction H as [| t l Ht _ IH]; intro i; simpl.
  - reflexivity.
  - apply Qlt_bool_false_iff in Ht. rewrite Ht. apply IH.
Qed.

(** When no point meets the constraint, either loop runs to its end and
    the function returns [None], never a triple. *)
Lemma neyman_pearson_unreachable (Se : bool) :
  (if Se then Forall (fun t => t < min_rate) tpr
   else Forall (fun f => min_rate <= 1 - f) fpr) ->
  neyman_pearson fpr tpr thresh min_rate Se = Ok None.
Proof.
  destruct Se; intro H; unfold neyman_pearson.
  - apply scan_Se_unreachable, H.
  - apply scan_Sp_unreachable. apply Forall_map. exact H.
Qed.

End NeymanPearsonFacts.

(** C1.  The all-zero sentinel is not what an unreachable constraint
    yields: on the two-point curve [(0,0), (1,1)] a sensitivity constraint
    of 3/2 and a specificity constraint of 0 are met by no point, and in
    both cases [neyman_pearson] returns [None], not [(0, 0, 0)]. *)
Theorem neyman_pearson_unreachable_is_None :
  NeymanPearson.neyman_pearson [0; 1] [0; 1] [2; 1] (3 # 2) true = Ok None /\
  NeymanPearson.neyman_pearson [0; 1] [0; 1] [2; 1] 0 false = Ok None /\
  Ok None <> Ok (Some NeymanPearson.sentinel).
Proof.
  repeat split; try reflexivity. discriminate.
Qed.

(** ** [partial_auc] *)

Section AUCFacts.
Import AUC.

Lemma diff_cons2 (a b : Q) (l : list Q) :
  diff (a :: b :: l) = (b - a) :: diff (b :: l).
Proof. reflexivity. Qed.

Lemma nondecreasing_no_negative_step (x : list Q) :
  nondecreasing x -> existsb (fun d => Qlt_bool d 0) (diff x) = false.
Proof.
  induction x as [| a [| b l] IH]; intro H; try reflexivity.
  rewrite diff_cons2. simpl existsb. destruct H as [Hab Hrest].
  rewrite (IH Hrest), orb_false_r.
  apply Qlt_bool_false_iff. lra.
Qed.

Lemma trapz_full_auc_spec (x y : list Q) :
  length x = length y -> trapz y x == full_auc_spec (combine x y).
Proof.
  revert y. induction x as [| x0 [| x1 xs] IH]; intros [| y0 [| y1 ys]] Hlen;
    try discriminate; try reflexivity.
  change (trapz (y0 :: y1 :: ys) (x0 :: x1 :: xs))
    with ((x1 - x0) * (y1 + y0) / 2 + trapz (y1 :: ys) (x1 :: xs)).
  change (full_auc_spec (combine (x0 :: x1 :: xs) (y0 :: y1 :: ys)))
    with ((x1 - x0) * (y0 + y1) / 2 + full_auc_spec (combine (x1 :: xs) (y1 :: ys))).
  rewrite (IH (y1 :: ys)) by (simpl in *; lia).
  field.
Qed.

(** Without a slice the function is [metrics.auc] on the untouched curve,
    whatever the curve and the flag. *)
Lemma partial_auc_whole_curve (fpr tpr : list Q) (Sp : bool) :
  partial_auc fpr tpr 0 1 Sp = metrics_auc fpr tpr false.
Proof. reflexivity. Qed.

(** The source's recursive call is the call of the same function with
    [Sp=True]. *)
Lemma partial_auc_unfold (fpr tpr : list Q) (op1 op2 : Q) (Sp : bool) :
  partial_auc fpr tpr op1 op2 Sp =
  partial_auc_body (fun f t a b => partial_auc f t a b true) fpr tpr op1 op2 Sp.
Proof.
  unfold partial_auc, partial_auc_vertical, partial_auc_body.
  destruct (Qle_bool op2 op1); [reflexivity |].
  destruct (Qlt_bool 0 op1 || Qlt_bool op2 1); [| reflexivity].
  destruct Sp; reflexivity.
Qed.

(** C2.  On a valid curve (at least two points, as many [tpr] as [fpr]
    values, [fpr] non-decreasing) [partial_auc] with the operating points
    0 and 1 returns the trapezoidal area of the whole curve, for either
    value of [Sp]. *)
Theorem partial_auc_0_1_is_full_auc (fpr tpr : list Q) (Sp : bool) :
  length fpr = length tpr ->
  (2 <= length fpr)%nat ->
  nondecreasing fpr ->
  exists a, partial_auc fpr tpr 0 1 Sp = Ok a /\
            metrics_auc fpr tpr false = Ok a /\
            a == full_auc_spec (combine fpr tpr).
Proof.
  intros Hlen H2 Hmono.
  exists (1 * trapz tpr fpr).
  rewrite partial_auc_whole_curve.
  assert (E : metrics_auc fpr tpr false = Ok (1 * trapz tpr fpr)).
  { unfold metrics_auc.
    rewrite <- Hlen, Nat.eqb_refl. simpl negb. cbv iota.
    destruct (length fpr <? 2)%nat eqn:E2; [apply Nat.ltb_lt in E2; lia |].
    rewrite (nondecreasing_no_negative_step fpr Hmono). reflexivity. }
  repeat split; try exact E.
  rewrite <- (trapz_full_auc_spec fpr tpr Hlen). ring.
Qed.

Lemma partial_auc_0_1_is_full_auc_witness :
  exists a, partial_auc [0; 0; 1 # 2; 1] [0; 1 # 2; 1; 1] 0 1 true = Ok a /\
            metrics_auc [0; 0; 1 # 2; 1] [0; 1 # 2; 1; 1] false = Ok a /\
            a == full_auc_spec (combine [0; 0; 1 # 2; 1] [0; 1 # 2; 1; 1]).
Proof.
  apply (partial_auc_0_1_is_full_auc [0; 0; 1 # 2; 1] [0; 1 # 2; 1; 1] true).
  - reflexivity.
  - simpl; lia.
  - simpl. repeat split; lra.
Defined.

(** The guard on the operating points. *)
Lemma partial_auc_guard (fpr tpr : list Q) (op1 op2 : Q) (Sp : bool) :
  op2 <= op1 -> partial_auc fpr tpr op1 op2 Sp = Raise op_order.
Proof.
  intro H. apply Qle_bool_iff in H.
  unfold partial_auc, partial_auc_body. rewrite H. reflexivity.
Qed.

Lemma metrics_auc_not_op_order (x y : list Q) (r : bool) :
  metrics_auc x y r <> Raise op_order.
Proof.
  unfold metrics_auc.
  destruct (negb _); [discriminate |].
  destruct (_ <? _)%nat; [discriminate |].
  destruct r; [discriminate |].
  destruct (existsb _ _); [| discriminate].
  destruct (forallb _ _); discriminate.
Qed.

Lemma mul_mask_not_op_order (a : list Q) (m : list bool) :
  mul_mask a m <> Raise op_order.
Proof.
  unfold mul_mask. destruct (_ =? _)%nat; [discriminate |].
  destruct a as [| x [| x' a]]; destruct m as [| b [| b' m]]; discriminate.
Qed.

Lemma partial_auc_vertical_no_op_order (fpr tpr : list Q) (op1 op2 : Q) :
  op1 < op2 -> partial_auc fpr tpr op1 op2 true <> Raise op_order.
Proof.
  intro H. apply Qle_bool_false_iff in H.
  unfold partial_auc, partial_auc_body. rewrite H.
  destruct (Qlt_bool 0 op1 || Qlt_bool op2 1); [| apply metrics_auc_not_op_order].
  cbv zeta.
  match goal with |- context [mul_mask fpr ?m] =>
    generalize (mul_mask_not_op_order fpr m);
    generalize (mul_mask_not_op_order tpr m);
    destruct (mul_mask fpr m) as [f' | e1] end; simpl.
  - match goal with |- context [mul_mask tpr ?m] =>
      destruct (mul_mask tpr m) as [t' | e2] end; simpl.
    + intros _ _. apply metrics_auc_not_op_order.
    + intros Ht _ X. apply Ht. congruence.
  - intros _ Hf X. apply Hf. congruence.
Qed.

Lemma getitem_error {A : Type} (a : list A) (i : nat) (e : exn) :
  getitem a i = Raise e -> e = IndexError.
Proof.
  unfold getitem. destruct (nth_error a i); [discriminate | congruence].
Qed.

Lemma scan_up_error (op1 : Q) (l : list Q) (n : nat) (e : exn) :
  scan_up op1 n l = Raise e -> e = IndexError.
Proof.
  revert n. induction l as [| t l IH]; simpl; intros n E; [congruence |].
  destruct (Qlt_bool t op1); [eapply IH; eauto | discriminate].
Qed.

Lemma scan_down_error (l : list Q) (op2 : Q) (k : nat) (e : exn) :
  scan_down l op2 k = Raise e -> e = IndexError.
Proof.
  induction k as [| k IH]; simpl; [congruence |].
  destruct (getitem l k) as [t | e'] eqn:E; simpl.
  - destruct (Qlt_bool op2 t); [exact IH | discriminate].
  - intro X. apply getitem_error in E. congruence.
Qed.



End AUCFacts.


(** ** Indexing *)

Lemma getitem_nth {A : Type} (a : list A) (i : nat) (d : A) :
  (i < length a)%nat -> getitem a i = Ok (nth i a d).
Proof.
  intro H. unfold getitem.
  rewrite (nth_error_nth' a d H). reflexivity.
Qed.

(** ** [max_youden_J] *)

Section YoudenFacts.
Import Youden.

Variables (fpr tpr thresh : list Q).
Hypothesis len_fpr : length fpr = length tpr.
Hypothesis len_thresh : length thresh = length tpr.

Local Abbreviation seen := (Youden.seen fpr tpr thresh).

Lemma step_seen (i : nat) (st : locals) :
  (i < length tpr)%nat -> seen i st ->
  exists st', step fpr tpr thresh st i = Ok st' /\ seen (S i) st'.
Proof.
  intros Hi Hseen. unfold step.
  rewrite (getitem_nth tpr i 0 Hi).
  rewrite (getitem_nth fpr i 0) by lia.
  rewrite (getitem_nth thresh i 0) by lia.
  simpl bind.
  assert (HJ : nth i tpr 0 + (1 - nth i fpr 0) - 1 = J fpr tpr i) by reflexivity.
  rewrite HJ.
  destruct (Qlt_bool (Jval st) (J fpr tpr i)) eqn:E.
  - apply Qlt_bool_iff in E.
    eexists; split; [reflexivity |]. right. exists i.
    simpl. repeat split; try lia.
    + unfold J. ring.
    + destruct Hseen as [[-> _] | (k & _ & _ & _ & _ & Hv & Hk & _)];
        simpl in E; lra.
    + intros j Hj. destruct (Nat.eq_dec j i) as [-> | Hne]; [lra |].
      assert (Hj' : (j < i)%nat) by lia.
      destruct Hseen as [[-> Hall] | (k & _ & _ & _ & _ & Hv & _ & Hall & _)].
      * specialize (Hall j Hj'). simpl in E. lra.
      * specialize (Hall j Hj'). lra.
    + intros j Hj.
      destruct Hseen as [[-> Hall] | (k & _ & _ & _ & _ & Hv & _ & Hall & _)].
      * specialize (Hall j Hj). simpl in E. lra.
      * specialize (Hall j Hj). lra.
  - apply Qlt_bool_false_iff in E.
    exists st; split; [reflexivity |].
    destruct Hseen as [[-> Hall] | (k & Hk & Hf & Ht & Hth & Hv & Hpos & Hall & Hfirst)].
    + left. split; [reflexivity |]. intros j Hj.
      destruct (Nat.eq_dec j i) as [-> | Hne]; [exact E | apply Hall; lia].
    + right. exists k. repeat split; auto.
      intros j Hj. destruct (Nat.eq_dec j i) as [-> | Hne]; [lra | apply Hall; lia].
Qed.

Lemma loop_seen (m s : nat) (st : locals) :
  (s + m = length tpr)%nat -> seen s st ->
  exists st', loop fpr tpr thresh (seq s m) st = Ok st' /\ seen (length tpr) st'.
Proof.
  revert s st. induction m as [| m IH]; intros s st Hlen Hseen; simpl.
  - exists st. split; [reflexivity |]. replace (length tpr) with s by lia. exact Hseen.
  - destruct (step_seen s st) as (st1 & E1 & H1); [lia | exact Hseen |].
    rewrite E1. simpl. apply IH; [lia | exact H1].
Qed.

Lemma seen_start : seen 0 start.
Proof. left. split; [reflexivity | intros j Hj; lia]. Qed.

Lemma loop_total :
  exists st, loop fpr tpr thresh (seq 0 (length tpr)) start = Ok st /\
             seen (length tpr) st.
Proof. apply loop_seen; [reflexivity | apply seen_start]. Qed.


(** C9.  [max_youden_J] produces a result exactly when some point has a
    strictly positive J; otherwise [Jfpr] is read before any assignment. *)
Theorem max_youden_J_partial :
  (max_youden_J fpr tpr thresh = Raise UnboundLocalError <->
   forall i, (i < length tpr)%nat -> J fpr tpr i <= 0) /\
  ((exists r, max_youden_J fpr tpr thresh = Ok r) <->
   exists i, (i < length tpr)%nat /\ 0 < J fpr tpr i).
Proof.
  destruct loop_total as (st & E & Hseen).
  unfold max_youden_J. rewrite E. simpl.
  destruct Hseen as [[-> Hall] | (k & Hk & Hf & Ht & Hth & Hv & Hpos & Hmax & Hfirst)].
  - simpl. split; split; try tauto.
    + intros (r & X). discriminate X.
    + intros (i & Hi & Hp). specialize (Hall i Hi). lra.
  - rewrite Hf. split; split.
    + discriminate.
    + intro Hall. specialize (Hall k Hk). lra.
    + intros _. exists k. tauto.
    + intros _. eexists. reflexivity.
Qed.

End YoudenFacts.



Lemma max_youden_J_partial_witness :
  Youden.max_youden_J [0; 1 # 2; 1] [0; 1 # 2; 1] [2; 1; 0] = Raise UnboundLocalError.
Proof.
  apply (proj1 (max_youden_J_partial [0; 1 # 2; 1] [0; 1 # 2; 1] [2; 1; 0]
                  eq_refl eq_refl)).
  intros i Hi.
  destruct i as [| [| [| i]]]; try (simpl in Hi; lia);
    unfold Youden.J, Qle; simpl; lia.
Defined.

(** ** [best_ppv] and [best_npv] *)

Lemma ratio_bounds (a b : Q) :
  0 < a -> 0 <= b -> 0 < a / (a + b) /\ a / (a + b) <= 1.
Proof.
  intros Ha Hb. assert (Hd : 0 < a + b) by lra. split.
  - apply Qlt_shift_div_l; [exact Hd | lra].
  - apply Qle_shift_div_r; [exact Hd | lra].
Qed.

Lemma xdiv_fin (a b : Q) : ~ b == 0 -> xdiv a b = Fin (a / b).
Proof.
  intro H. unfold xdiv. apply Qeq_bool_false_iff in H. rewrite H. reflexivity.
Qed.

Section PredictiveFacts.
Import Predictive.

Variables (fpr tpr thresh : list Q) (Nn Np : Q).
Hypothesis len_fpr : length fpr = length tpr.
Hypothesis len_thresh : length thresh = length tpr.
Hypothesis rates : forall i, (i < length tpr)%nat ->
  0 <= nth i fpr 0 <= 1 /\ 0 <= nth i tpr 0 <= 1.
Hypothesis Nn_pos : 0 < Nn.
Hypothesis Np_pos : 0 < Np.

Local Abbreviation ppv := (Predictive.ppv fpr tpr Nn Np).
Local Abbreviation npv := (Predictive.npv fpr tpr Nn Np).

Lemma ppv_bounds (i : nat) :
  (i < length tpr)%nat -> 0 < nth i tpr 0 -> 0 < ppv i /\ ppv i <= 1.
Proof.
  intros Hi Ht. destruct (rates i Hi) as [[Hf0 Hf1] [Ht0 Ht1]].
  apply ratio_bounds.
  - apply Qmult_lt_0_compat; assumption.
  - apply Qmult_le_0_compat; lra.
Qed.

Lemma npv_bounds (i : nat) :
  (i < length tpr)%nat -> nth i fpr 0 < 1 -> 0 < npv i /\ npv i <= 1.
Proof.
  intros Hi Hf. destruct (rates i Hi) as [[Hf0 Hf1] [Ht0 Ht1]].
  apply ratio_bounds.
  - apply Qmult_lt_0_compat; lra.
  - apply Qmult_le_0_compat; lra.
Qed.

Lemma ppv_of_fin (i : nat) :
  (i < length tpr)%nat -> 0 < nth i tpr 0 ->
  ppv_of Nn Np (nth i fpr 0) (nth i tpr 0) = Fin (ppv i).
Proof.
  intros Hi Ht. destruct (rates i Hi) as [[Hf0 Hf1] [Ht0 Ht1]].
  apply xdiv_fin.
  assert (0 < nth i tpr 0 * Np) by (apply Qmult_lt_0_compat; assumption).
  assert (0 <= nth i fpr 0 * Nn) by (apply Qmult_le_0_compat; lra).
  lra.
Qed.

Lemma npv_of_fin (i : nat) :
  (i < length tpr)%nat -> nth i fpr 0 < 1 ->
  npv_of Nn Np (1 - nth i fpr 0) (1 - nth i tpr 0) = Fin (npv i).
Proof.
  intros Hi Hf. destruct (rates i Hi) as [[Hf0 Hf1] [Ht0 Ht1]].
  apply xdiv_fin.
  assert (0 < (1 - nth i fpr 0) * Nn) by (apply Qmult_lt_0_compat; lra).
  assert (0 <= (1 - nth i tpr 0) * Np) by (apply Qmult_le_0_compat; lra).
  lra.
Qed.

Section PPV.
Variable target_ppv : Q.
Hypothesis target_range : 0 <= target_ppv <= 1.

Local Abbreviation ppv_dist := (Predictive.ppv_dist fpr tpr Nn Np target_ppv).
Local Abbreviation ppv_seen := (Predictive.ppv_seen fpr tpr thresh Nn Np target_ppv).

Lemma ppv_dist_le_1 (i : nat) :
  (i < length tpr)%nat -> 0 < nth i tpr 0 -> ppv_dist i <= 1.
Proof.
  intros Hi Ht. destruct (ppv_bounds i Hi Ht).
  unfold Predictive.ppv_dist. apply Qabs_Qle_condition. lra.
Qed.

Lemma ppv_step_seen (i : nat) (st : locals) :
  (i < length tpr)%nat -> ppv_seen i st ->
  exists st', ppv_step fpr tpr thresh Nn Np target_ppv st i = Ok st' /\
              ppv_seen (S i) st'.
Proof.
  intros Hi Hseen. unfold ppv_step.
  rewrite (getitem_nth tpr i 0 Hi). cbn [bind].
  destruct (rates i Hi) as [[Hf0 Hf1] [Ht0 Ht1]].
  destruct (Qeq_bool (nth i tpr 0) 0) eqn:Ez.
  - apply Qeq_bool_iff in Ez. exists st. split; [reflexivity |].
    destruct Hseen as [[-> Hall] | (k & Hk & Hkt & Hb & Hd & Hp & Hmin & Hlast)].
    + left. split; [reflexivity |]. intros j Hj.
      destruct (Nat.eq_dec j i) as [-> | Hne]; [exact Ez | apply Hall; lia].
    + right. exists k. repeat split; auto.
      * intros j Hj Hjt. destruct (Nat.eq_dec j i) as [-> | Hne]; [lra | apply Hmin; [lia | exact Hjt]].
      * intros j Hj Hjt. destruct (Nat.eq_dec j i) as [-> | Hne]; [lra | apply Hlast; [lia | exact Hjt]].
  - apply Qeq_bool_false_iff in Ez.
    assert (Hpos : 0 < nth i tpr 0) by lra.
    rewrite (getitem_nth fpr i 0) by lia. cbn [bind].
    rewrite (ppv_of_fin i Hi Hpos).
    change (xabs (xsub (Fin target_ppv) (Fin (ppv i)))) with (Fin (ppv_dist i)).
    rewrite (getitem_nth thresh i 0) by lia. cbn [bind].
    destruct Hseen as [[-> Hall] | (k & Hk & Hkt & Hb & Hd & Hp & Hmin & Hlast)].
    + change (xleb (Fin (ppv_dist i)) (best_diff start)) with (Qle_bool (ppv_dist i) 1).
      pose proof (ppv_dist_le_1 i Hi Hpos) as H1.
      apply Qle_bool_iff in H1. rewrite H1.
      eexists; split; [reflexivity |]. right. exists i. cbn [best best_diff best_pt].
      repeat split; try lia; try assumption.
      intros j Hj Hjt. destruct (Nat.eq_dec j i) as [-> | Hne]; [lra |].
      assert (Hz : nth j tpr 0 == 0) by (apply Hall; lia). lra.
    + rewrite Hd.
      change (xleb (Fin (ppv_dist i)) (Fin (ppv_dist k)))
        with (Qle_bool (ppv_dist i) (ppv_dist k)).
      destruct (Qle_bool (ppv_dist i) (ppv_dist k)) eqn:E.
      * apply Qle_bool_iff in E.
        eexists; split; [reflexivity |]. right. exists i. cbn [best best_diff best_pt].
        repeat split; try lia; try assumption.
        intros j Hj Hjt. destruct (Nat.eq_dec j i) as [-> | Hne]; [lra |].
        assert (ppv_dist k <= ppv_dist j) by (apply Hmin; [lia | exact Hjt]). lra.
      * apply Qle_bool_false_iff in E.
        exists st. split; [reflexivity |]. right. exists k.
        repeat split; auto.
        -- intros j Hj Hjt. destruct (Nat.eq_dec j i) as [-> | Hne]; [lra |].
           apply Hmin; [lia | exact Hjt].
        -- intros j Hj Hjt. destruct (Nat.eq_dec j i) as [-> | Hne]; [lra |].
           apply Hlast; [lia | exact Hjt].
Qed.

Lemma ppv_loop_seen (m s : nat) (st : locals) :
  (s + m = length tpr)%nat -> ppv_seen s st ->
  exists st', loop (ppv_step fpr tpr thresh Nn Np target_ppv) (seq s m) st = Ok st' /\
              ppv_seen (length tpr) st'.
Proof.
  revert s st. induction m as [| m IH]; intros s st Hlen Hseen; simpl.
  - exists st. split; [reflexivity |]. replace (length tpr) with s by lia. exact Hseen.
  - destruct (ppv_step_seen s st) as (st1 & E1 & H1); [lia | exact Hseen |].
    rewrite E1. simpl. apply IH; [lia | exact H1].
Qed.

Lemma best_ppv_last_minimum :
  (exists i, (i < length tpr)%nat /\ 0 < nth i tpr 0) ->
  exists k, (k < length tpr)%nat /\ 0 < nth k tpr 0 /\
    best_ppv fpr tpr thresh Nn Np target_ppv =
      Ok (Fin (ppv k), nth k fpr 0, nth k tpr 0, nth k thresh 0) /\
    (forall j, (j < length tpr)%nat -> 0 < nth j tpr 0 -> ppv_dist k <= ppv_dist j) /\
    (forall j, (k < j < length tpr)%nat -> 0 < nth j tpr 0 -> ppv_dist k < ppv_dist j).
Proof.
  intros (i & Hi & Hpos).
  destruct (ppv_loop_seen (length tpr) 0 start) as (st & E & Hseen);
    [reflexivity | left; split; [reflexivity | intros j Hj; lia] |].
  destruct Hseen as [[-> Hall] | (k & Hk & Hkt & Hb & Hd & Hp & Hmin & Hlast)].
  - specialize (Hall i Hi). lra.
  - exists k. unfold best_ppv. rewrite E. simpl. unfold finish. rewrite Hp, Hb.
    repeat split; assumption.
Qed.

End PPV.

Section NPV.
Variable target_npv : Q.
Hypothesis target_range : 0 <= target_npv <= 1.

Local Abbreviation npv_dist := (Predictive.npv_dist fpr tpr Nn Np target_npv).
Local Abbreviation npv_seen := (Predictive.npv_seen fpr tpr thresh Nn Np target_npv).

Lemma npv_dist_lt_1 (i : nat) :
  (i < length tpr)%nat -> nth i fpr 0 < 1 -> nth i tpr 0 < 1 -> npv_dist i < 1.
Proof.
  intros Hi Hf Ht. destruct (npv_bounds i Hi Hf) as [Hlo Hhi].
  destruct (rates i Hi) as [[Hf0 Hf1] [Ht0 Ht1]].
  assert (Hstrict : npv i < 1).
  { unfold Predictive.npv. apply Qlt_shift_div_r.
    - assert (0 < (1 - nth i fpr 0) * Nn) by (apply Qmult_lt_0_compat; lra).
      assert (0 <= (1 - nth i tpr 0) * Np) by (apply Qmult_le_0_compat; lra).
      lra.
    - assert (0 < (1 - nth i tpr 0) * Np) by (apply Qmult_lt_0_compat; lra).
      lra. }
  unfold Predictive.npv_dist. apply Qabs_Qlt_condition. lra.
Qed.

Lemma npv_step_seen (i : nat) (st : locals) :
  (i < length tpr)%nat -> npv_seen i st ->
  exists st', npv_step fpr tpr thresh Nn Np target_npv st i = Ok st' /\
              npv_seen (S i) st'.
Proof.
  intros Hi Hseen. unfold npv_step.
  rewrite (getitem_nth fpr i 0) by lia. cbn [bind].
  destruct (rates i Hi) as [[Hf0 Hf1] [Ht0 Ht1]].
  destruct (Qeq_bool (1 - nth i fpr 0) 0) eqn:Ez.
  - apply Qeq_bool_iff in Ez. exists st. split; [reflexivity |].
    destruct Hseen as [[-> Hall] | (k & Hk & Hkf & Hb & Hd & Hp & Hlt & Hmin & Hfirst)].
    + left. split; [reflexivity |]. intros j Hj Hjf.
      destruct (Nat.eq_dec j i) as [-> | Hne]; [lra | apply Hall; [lia | exact Hjf]].
    + right. exists k. repeat split; auto.
      intros j Hj Hjf.
      destruct (Nat.eq_dec j i) as [-> | Hne]; [lra | apply Hmin; [lia | exact Hjf]].
  - apply Qeq_bool_false_iff in Ez.
    assert (Hcand : nth i fpr 0 < 1) by lra.
    rewrite (getitem_nth tpr i 0 Hi). cbn [bind].
    rewrite (npv_of_fin i Hi Hcand).
    change (xabs (xsub (Fin target_npv) (Fin (npv i)))) with (Fin (npv_dist i)).
    rewrite (getitem_nth thresh i 0) by lia. cbn [bind].
    destruct Hseen as [[-> Hall] | (k & Hk & Hkf & Hb & Hd & Hp & Hlt & Hmin & Hfirst)].
    + change (xltb (Fin (npv_dist i)) (best_diff start)) with (Qlt_bool (npv_dist i) 1).
      destruct (Qlt_bool (npv_dist i) 1) eqn:E.
      * apply Qlt_bool_iff in E.
        eexists; split; [reflexivity |]. right. exists i. cbn [best best_diff best_pt].
        repeat split; try lia; try assumption.
        -- intros j Hj Hjf. destruct (Nat.eq_dec j i) as [-> | Hne]; [lra |].
           assert (1 <= npv_dist j) by (apply Hall; [lia | exact Hjf]). lra.
        -- intros j Hj Hjf.
           assert (1 <= npv_dist j) by (apply Hall; [lia | exact Hjf]). lra.
      * apply Qlt_bool_false_iff in E.
        exists start. split; [reflexivity |]. left. split; [reflexivity |].
        intros j Hj Hjf.
        destruct (Nat.eq_dec j i) as [-> | Hne]; [exact E | apply Hall; [lia | exact Hjf]].
    + rewrite Hd.
      change (xltb (Fin (npv_dist i)) (Fin (npv_dist k)))
        with (Qlt_bool (npv_dist i) (npv_dist k)).
      destruct (Qlt_bool (npv_dist i) (npv_dist k)) eqn:E.
      * apply Qlt_bool_iff in E.
        eexists; split; [reflexivity |]. right. exists i. cbn [best best_diff best_pt].
        repeat split; try lia; try assumption; try lra.
        -- intros j Hj Hjf. destruct (Nat.eq_dec j i) as [-> | Hne]; [lra |].
           assert (npv_dist k <= npv_dist j) by (apply Hmin; [lia | exact Hjf]). lra.
        -- intros j Hj Hjf.
           assert (npv_dist k <= npv_dist j) by (apply Hmin; [lia | exact Hjf]). lra.
      * apply Qlt_bool_false_iff in E.
        exists st. split; [reflexivity |]. right. exists k.
        repeat split; auto.
        intros j Hj Hjf. destruct (Nat.eq_dec j i) as [-> | Hne]; [lra |].
        apply Hmin; [lia | exact Hjf].
Qed.

Lemma npv_loop_seen (m s : nat) (st : locals) :
  (s + m = length tpr)%nat -> npv_seen s st ->
  exists st', loop (npv_step fpr tpr thresh Nn Np target_npv) (seq s m) st = Ok st' /\
              npv_seen (length tpr) st'.
Proof.
  revert s st. induction m as [| m IH]; intros s st Hlen Hseen; simpl.
  - exists st. split; [reflexivity |]. replace (length tpr) with s by lia. exact Hseen.
  - destruct (npv_step_seen s st) as (st1 & E1 & H1); [lia | exact Hseen |].
    rewrite E1. simpl. apply IH; [lia | exact H1].
Qed.

Lemma best_npv_first_minimum :
  (exists i, (i < length tpr)%nat /\ nth i fpr 0 < 1 /\ nth i tpr 0 < 1) ->
  exists k, (k < length tpr)%nat /\ nth k fpr 0 < 1 /\
    best_npv fpr tpr thresh Nn Np target_npv =
      Ok (Fin (npv k), nth k fpr 0, nth k tpr 0, nth k thresh 0) /\
    (forall j, (j < length tpr)%nat -> nth j fpr 0 < 1 -> npv_dist k <= npv_dist j) /\
    (forall j, (j < k)%nat -> nth j fpr 0 < 1 -> npv_dist k < npv_dist j).
Proof.
  intros (i & Hi & Hf & Ht).
  destruct (npv_loop_seen (length tpr) 0 start) as (st & E & Hseen);
    [reflexivity | left; split; [reflexivity | intros j Hj; lia] |].
  destruct Hseen as [[-> Hall] | (k & Hk & Hkf & Hb & Hd & Hp & Hlt & Hmin & Hfirst)].
  - specialize (Hall i Hi Hf). pose proof (npv_dist_lt_1 i Hi Hf Ht). lra.
  - exists k. unfold best_npv. rewrite len_fpr, E. simpl. unfold finish. rewrite Hp, Hb.
    repeat split; assumption.
Qed.

End NPV.

End PredictiveFacts.



(** ** [reliability_curve] *)

Section ReliabilityFacts.
Import Reliability.

Lemma fold_min_spec (rest : list Q) (x : Q) :
  let m := fold_left (fun m y => if Qlt_bool y m then y else m) rest x in
  (m = x \/ In m rest) /\ m <= x /\ forall z, In z rest -> m <= z.
Proof.
  revert x. induction rest as [| y rest IH]; intro x; simpl.
  - repeat split; [left; reflexivity | lra | intros z []].
  - destruct (Qlt_bool y x) eqn:E.
    + apply Qlt_bool_iff in E.
      destruct (IH y) as ([Hm | Hm] & Hle & Hall).
      * repeat split; [right; left; symmetry; exact Hm | lra |].
        intros z [<- | Hz]; [exact Hle | apply Hall, Hz].
      * repeat split; [right; right; exact Hm | lra |].
        intros z [<- | Hz]; [exact Hle | apply Hall, Hz].
    + apply Qlt_bool_false_iff in E.
      destruct (IH x) as ([Hm | Hm] & Hle & Hall).
      * repeat split; [left; exact Hm | exact Hle |].
        intros z [<- | Hz]; [lra | apply Hall, Hz].
      * repeat split; [right; right; exact Hm | exact Hle |].
        intros z [<- | Hz]; [lra | apply Hall, Hz].
Qed.

Lemma fold_max_spec (rest : list Q) (x : Q) :
  let m := fold_left (fun m y => if Qlt_bool m y then y else m) rest x in
  (m = x \/ In m rest) /\ x <= m /\ forall z, In z rest -> z <= m.
Proof.
  revert x. induction rest as [| y rest IH]; intro x; simpl.
  - repeat split; [left; reflexivity | lra | intros z []].
  - destruct (Qlt_bool x y) eqn:E.
    + apply Qlt_bool_iff in E.
      destruct (IH y) as ([Hm | Hm] & Hle & Hall).
      * repeat split; [right; left; symmetry; exact Hm | lra |].
        intros z [<- | Hz]; [exact Hle | apply Hall, Hz].
      * repeat split; [right; right; exact Hm | lra |].
        intros z [<- | Hz]; [exact Hle | apply Hall, Hz].
    + apply Qlt_bool_false_iff in E.
      destruct (IH x) as ([Hm | Hm] & Hle & Hall).
      * repeat split; [left; exact Hm | exact Hle |].
        intros z [<- | Hz]; [lra | apply Hall, Hz].
      * repeat split; [right; right; exact Hm | exact Hle |].
        intros z [<- | Hz]; [lra | apply Hall, Hz].
Qed.

Lemma amin_spec (a : list Q) :
  a <> [] ->
  exists m, amin a = Ok m /\ In m a /\ forall z, In z a -> m <= z.
Proof.
  destruct a as [| x rest]; [congruence | intros _].
  eexists. split; [reflexivity |].
  destruct (fold_min_spec rest x) as (Hin & Hle & Hall).
  split.
  - destruct Hin as [-> | Hin]; [left; reflexivity | right; exact Hin].
  - intros z [<- | Hz]; [exact Hle | apply Hall, Hz].
Qed.

Lemma amax_spec (a : list Q) :
  a <> [] ->
  exists m, amax a = Ok m /\ In m a /\ forall z, In z a -> z <= m.
Proof.
  destruct a as [| x rest]; [congruence | intros _].
  eexists. split; [reflexivity |].
  destruct (fold_max_spec rest x) as (Hin & Hle & Hall).
  split.
  - destruct Hin as [-> | Hin]; [left; reflexivity | right; exact Hin].
  - intros z [<- | Hz]; [exact Hle | apply Hall, Hz].
Qed.

Lemma In_removelast {A : Type} (x : A) (l : list A) :
  In x (removelast l) -> In x l.
Proof.
  induction l as [| a [| b l] IH]; simpl; intro H; [contradiction | contradiction |].
  destruct H as [-> | H]; [left; reflexivity | right; apply IH, H].
Qed.

Lemma Qdiv_nonneg (a b : Q) : 0 <= a -> 0 <= b -> 0 <= a / b.
Proof.
  intros Ha Hb. unfold Qdiv. apply Qmult_le_0_compat; [exact Ha |].
  apply Qinv_le_0_compat, Hb.
Qed.

Lemma bin_width_le_1 (bins : nat) : 1 / inject_Z (Z.of_nat bins) <= 1.
Proof.
  destruct bins as [| n].
  - unfold Qle; simpl; lia.
  - apply Qle_shift_div_r.
    + change 0 with (inject_Z 0). rewrite <- Zlt_Qlt. lia.
    + rewrite Qmult_1_l. change 1 with (inject_Z 1). rewrite <- Zle_Qle. lia.
Qed.

(** Every bin's lower edge is at or above 0. *)
Lemma linspace_nonneg (bins : nat) (c : Q) :
  In c (linspace 0 (1 - 1 / inject_Z (Z.of_nat bins)) bins) -> 0 <= c.
Proof.
  pose proof (bin_width_le_1 bins) as Hbw.
  assert (Hstop : 0 <= 1 - 1 / inject_Z (Z.of_nat bins)) by lra.
  assert (Hy : forall x,
    In x (map (fun i => inject_Z (Z.of_nat i) *
                        ((1 - 1 / inject_Z (Z.of_nat bins) - 0) /
                         inject_Z (Z.of_nat bins - 1)) + 0) (seq 0 bins)) ->
    0 <= x).
  { intros x Hx. apply in_map_iff in Hx. destruct Hx as (i & <- & Hi).
    apply in_seq in Hi.
    assert (0 <= inject_Z (Z.of_nat i)) by (change 0 with (inject_Z 0); rewrite <- Zle_Qle; lia).
    assert (0 <= (1 - 1 / inject_Z (Z.of_nat bins) - 0) / inject_Z (Z.of_nat bins - 1)).
    { apply Qdiv_nonneg; [lra |].
      change 0 with (inject_Z 0); rewrite <- Zle_Qle; lia. }
    assert (0 <= inject_Z (Z.of_nat i) *
                 ((1 - 1 / inject_Z (Z.of_nat bins) - 0) / inject_Z (Z.of_nat bins - 1)))
      by (apply Qmult_le_0_compat; assumption).
    lra. }
  unfold linspace. destruct (1 <? bins)%nat; intro H.
  - apply in_app_iff in H. destruct H as [H | [<- | []]].
    + apply Hy, In_removelast, H.
    + exact Hstop.
  - apply Hy, H.
Qed.

Lemma in_bin_zero (bins : nat) (c q : Q) :
  In c (bin_centers bins (1 / inject_Z (Z.of_nat bins))) -> q == 0 ->
  in_bin (1 / inject_Z (Z.of_nat bins)) c (Fin q) = false.
Proof.
  intros Hc Hq. unfold bin_centers in Hc.
  apply in_map_iff in Hc. destruct Hc as (c0 & <- & Hc0).
  apply linspace_nonneg in Hc0.
  unfold in_bin. apply andb_false_iff. left.
  change (xltb (Fin ?a) (Fin ?b)) with (Qlt_bool a b).
  apply Qlt_bool_false_iff. lra.
Qed.

Lemma in_bin_nan (bw c : Q) : in_bin bw c NaN = false.
Proof. reflexivity. Qed.


End ReliabilityFacts.


Section ReliabilityConstant.
Import Reliability.

Variables (y_true : list Q) (c : Q).

Lemma amin_repeat (n : nat) : amin (repeat c (S n)) = Ok c.
Proof.
  simpl. f_equal. induction n as [| n IH]; simpl; [reflexivity |].
  destruct (Qlt_bool c c); exact IH.
Qed.

Lemma amax_repeat (n : nat) : amax (repeat c (S n)) = Ok c.
Proof.
  simpl. f_equal. induction n as [| n IH]; simpl; [reflexivity |].
  destruct (Qlt_bool c c); exact IH.
Qed.

(** Equal scores are all normalised to [0/0]. *)
Lemma normalized_repeat (n : nat) :
  normalized (repeat c (S n)) = Ok (repeat NaN (S n)).
Proof.
  unfold normalized. rewrite amin_repeat, amax_repeat. cbn [bind].
  rewrite map_repeat. do 2 f_equal.
  unfold xdiv.
  assert (E : Qeq_bool (c - c) 0 = true) by (apply Qeq_bool_iff; ring).
  rewrite E. reflexivity.
Qed.

Lemma bin_outputs_nan (n : nat) (bw t : Q) :
  bin_outputs y_true (repeat NaN n) bw t = Ok (Fin 0, 0).
Proof.
  unfold bin_outputs. rewrite map_repeat, in_bin_nan.
  assert (E : count_nonzero (repeat false n) = 0%nat).
  { unfold count_nonzero. induction n as [| n IH]; simpl; [reflexivity | exact IH]. }
  rewrite E. reflexivity.
Qed.

Lemma bins_loop_nan (n : nat) (bw : Q) (centers : list Q) :
  bins_loop y_true (repeat NaN n) bw centers =
  Ok (repeat (Fin 0) (length centers), repeat 0 (length centers)).
Proof.
  induction centers as [| t rest IH]; simpl; [reflexivity |].
  rewrite bin_outputs_nan, IH. reflexivity.
Qed.

Lemma linspace_length (start stop : Q) (num : nat) :
  length (linspace start stop num) = num.
Proof.
  unfold linspace.
  destruct (1 <? num)%nat eqn:E.
  - apply Nat.ltb_lt in E.
    rewrite length_app, removelast_firstn_len, length_firstn, length_map, length_seq.
    simpl. lia.
  - rewrite length_map, length_seq. reflexivity.
Qed.

(** With [normalize=True], equal scores leave every bin empty: both
    outputs are zero in every position. *)
Lemma reliability_curve_constant_scores (n bins : nat) :
  reliability_curve y_true (repeat c (S n)) (S bins) true =
  Ok (repeat (Fin 0) (S bins), repeat 0 (S bins)).
Proof.
  unfold reliability_curve. rewrite normalized_repeat. cbn [bind].
  change (S bins =? 0)%nat with false. cbv iota.
  rewrite bins_loop_nan. unfold bin_centers.
  rewrite length_map, linspace_length. reflexivity.
Qed.

End ReliabilityConstant.

(** C4.  Three samples of score 1/2 with labels 1, 0, 1 and ten bins.
    Under the default [normalize=True] the scores become [0/0], no sample
    is in any bin and all twenty outputs are 0; the mean score and mean
    label appear nowhere.  With [normalize=False] the same input fills the
    fifth bin with the mean score 1/2 and the mean label 2/3. *)
Theorem reliability_curve_equal_scores_lost :
  Reliability.reliability_curve [1; 0; 1] [1 # 2; 1 # 2; 1 # 2] 10 true =
    Ok (repeat (Fin 0) 10, repeat 0 10) /\
  Reliability.normalized [1 # 2; 1 # 2; 1 # 2] = Ok [NaN; NaN; NaN] /\
  exists s e,
    Reliability.reliability_curve [1; 0; 1] [1 # 2; 1 # 2; 1 # 2] 10 false =
      Ok ([Fin 0; Fin 0; Fin 0; Fin 0; Fin s; Fin 0; Fin 0; Fin 0; Fin 0; Fin 0],
          [0; 0; 0; 0; e; 0; 0; 0; 0; 0]) /\
    s == 1 # 2 /\ e == 2 # 3.
Proof.
  split; [reflexivity |]. split; [reflexivity |].
  eexists. eexists. split; [vm_compute; reflexivity |].
  split; reflexivity.
Qed.

(** ** [pav_rocch]: level sets as blocks *)

Section PAVBlocks.
Import PAV.

Lemma total_app (bs1 bs2 : list block) :
  total (bs1 ++ bs2) = (total bs1 + total bs2)%nat.
Proof. unfold total. rewrite flat_map_app, length_app. reflexivity. Qed.

Lemma total_cons (b : block) (bs : list block) :
  total (b :: bs) = (size b + total bs)%nat.
Proof. unfold total, size. simpl. apply length_app. Qed.

Lemma conc_v_length (bs : list block) : length (conc_v bs) = total bs.
Proof.
  induction bs as [| b bs IH]; [reflexivity |].
  rewrite total_cons. unfold conc_v in *. simpl.
  rewrite length_app, repeat_length, IH. reflexivity.
Qed.

Lemma conc_l_length (off : nat) (bs : list block) :
  length (conc_l off bs) = total bs.
Proof.
  revert off. induction bs as [| b bs IH]; intro off; [reflexivity |].
  rewrite total_cons. simpl. rewrite length_app, repeat_length, IH. reflexivity.
Qed.

Lemma conc_v_app (bs1 bs2 : list block) :
  conc_v (bs1 ++ bs2) = conc_v bs1 ++ conc_v bs2.
Proof. apply flat_map_app. Qed.

Lemma conc_l_app (off : nat) (bs1 bs2 : list block) :
  conc_l off (bs1 ++ bs2) = conc_l off bs1 ++ conc_l (off + total bs1) bs2.
Proof.
  revert off. induction bs1 as [| b bs1 IH]; intro off; simpl.
  - rewrite Nat.add_0_r. reflexivity.
  - rewrite IH, total_cons, <- app_assoc, Nat.add_assoc. reflexivity.
Qed.

(** *** The derivative test on blocks *)

Lemma diff_cons_cons (a b : Q) (w : list Q) :
  AUC.diff (a :: b :: w) = (b - a) :: AUC.diff (b :: w).
Proof. reflexivity. Qed.

Lemma forallb_diff_nondecreasing (w : list Q) :
  forallb (fun d => Qle_bool 0 d) (AUC.diff w) = true -> AUC.nondecreasing w.
Proof.
  induction w as [| a [| b w] IH]; intro H; try exact I.
  rewrite diff_cons_cons in H. simpl forallb in H.
  apply andb_true_iff in H. destruct H as [Hab Hrest].
  apply Qle_bool_iff in Hab. split; [lra | apply IH, Hrest].
Qed.

Lemma diff_repeat_head (a : Q) (n : nat) (w : list Q) (i : nat) :
  forallb (fun d => Qle_bool 0 d) (AUC.diff (repeat a (S n) ++ w)) =
    forallb (fun d => Qle_bool 0 d) (AUC.diff (a :: w)) /\
  where_neg i (AUC.diff (repeat a (S n) ++ w)) =
    where_neg (i + n) (AUC.diff (a :: w)).
Proof.
  revert i. induction n as [| n IH]; intro i.
  - simpl repeat. simpl app. rewrite Nat.add_0_r. split; reflexivity.
  - change (repeat a (S (S n)) ++ w) with (a :: a :: (repeat a n ++ w)).
    rewrite diff_cons_cons.
    change (a :: repeat a n ++ w) with (repeat a (S n) ++ w).
    assert (E1 : Qle_bool 0 (a - a) = true) by (apply Qle_bool_iff; lra).
    assert (E2 : Qlt_bool (a - a) 0 = false) by (apply Qlt_bool_false_iff; lra).
    destruct (IH (S i)) as [H1 H2].
    split.
    + cbn [forallb]. rewrite E1. exact H1.
    + cbn [where_neg]. rewrite E2, H2. f_equal. lia.
Qed.

Lemma conc_v_cons (b : block) (bs : list block) :
  conc_v (b :: bs) = repeat (snd b) (size b) ++ conc_v bs.
Proof. reflexivity. Qed.

(** Either [v] passes the test, or the first violation sits on the border
    of two adjacent blocks. *)
Lemma first_violation (bs : list block) (i : nat) :
  Forall nonempty bs ->
  forallb (fun d => Qle_bool 0 d) (AUC.diff (conc_v bs)) = true \/
  (forallb (fun d => Qle_bool 0 d) (AUC.diff (conc_v bs)) = false /\
   exists pre A B post rest,
     bs = pre ++ A :: B :: post /\ snd B < snd A /\
     where_neg i (AUC.diff (conc_v bs)) = (i + total pre + size A - 1)%nat :: rest).
Proof.
  intro Hne. revert i. induction Hne as [| A bs HA Hbs IH]; intro i.
  - left. reflexivity.
  - rewrite conc_v_cons. unfold nonempty in HA.
    destruct (size A) as [| n] eqn:EA; [lia |].
    destruct (diff_repeat_head (snd A) n (conc_v bs) i) as [H1 H2].
    rewrite H1, H2. clear H1 H2.
    destruct Hbs as [| B post HB Hpost].
    + left. reflexivity.
    + rewrite conc_v_cons. unfold nonempty in HB.
      destruct (size B) as [| m] eqn:EB; [lia |].
      change (repeat (snd B) (S m) ++ conc_v post)
        with (snd B :: (repeat (snd B) m ++ conc_v post)).
      rewrite diff_cons_cons.
      change (snd B :: (repeat (snd B) m ++ conc_v post))
        with (repeat (snd B) (S m) ++ conc_v post).
      rewrite <- EB, <- conc_v_cons.
      cbn [forallb where_neg].
      destruct (Qlt_bool (snd B - snd A) 0) eqn:E.
      * right. apply Qlt_bool_iff in E.
        assert (E' : Qle_bool 0 (snd B - snd A) = false)
          by (apply Qle_bool_false_iff; exact E).
        rewrite E'. split; [reflexivity |].
        exists [], A, B, post. eexists.
        split; [reflexivity |]. split; [lra |].
        rewrite EA. f_equal. unfold total. simpl. lia.
      * apply Qlt_bool_false_iff in E.
        assert (E' : Qle_bool 0 (snd B - snd A) = true)
          by (apply Qle_bool_iff; exact E).
        rewrite E'. cbn [andb].
        destruct (IH (S (i + n))) as [Hok | (Hbad & pre & A' & B' & post' & rest & Hbs' & Hlt & Hw)].
        -- left. exact Hok.
        -- right. split; [exact Hbad |].
           exists (A :: pre), A', B', post', rest.
           split; [simpl; rewrite Hbs'; reflexivity |].
           split; [exact Hlt |].
           rewrite Hw. f_equal. rewrite total_cons, EA. lia.
Qed.

End PAVBlocks.

(** *** The loops of one pass, on a laid-out array *)

Section PAVArrays.
Import PAV.

Lemma getitem_app_skip {A : Type} (l1 l2 : list A) (j : nat) :
  getitem (l1 ++ l2) (length l1 + j) = getitem l2 j.
Proof.
  unfold getitem. rewrite nth_error_app2 by lia.
  replace (length l1 + j - length l1)%nat with j by lia. reflexivity.
Qed.

Lemma getitem_repeat {A : Type} (x : A) (m j : nat) (l : list A) :
  (j < m)%nat -> getitem (repeat x m ++ l) j = Ok x.
Proof.
  intro H. unfold getitem.
  rewrite nth_error_app1 by (rewrite repeat_length; exact H).
  rewrite nth_error_repeat by exact H. reflexivity.
Qed.

Lemma getitem_head {A : Type} (l1 : list A) (y : A) (r : list A) :
  getitem (l1 ++ y :: r) (length l1) = Ok y.
Proof.
  rewrite <- (Nat.add_0_r (length l1)), getitem_app_skip. reflexivity.
Qed.

Lemma setitem_head {A : Type} (l1 : list A) (y x : A) (r : list A) :
  setitem (l1 ++ y :: r) (length l1) x = Ok (l1 ++ x :: r).
Proof.
  induction l1 as [| z l1 IH]; simpl; [reflexivity |].
  rewrite IH. reflexivity.
Qed.

Lemma sum_range_mid (mid l1 l3 : list Q) (s0 : Q) :
  sum_range (l1 ++ mid ++ l3) (seq (length l1) (length mid)) s0 =
  Ok (fold_left Qplus mid s0).
Proof.
  revert l1 s0. induction mid as [| y mid IH]; intros l1 s0; [reflexivity |].
  simpl length. simpl seq. cbn [sum_range].
  change ((y :: mid) ++ l3) with (y :: (mid ++ l3)).
  rewrite getitem_head. cbn [bind].
  replace (l1 ++ y :: mid ++ l3) with ((l1 ++ [y]) ++ mid ++ l3)
    by (rewrite <- app_assoc; reflexivity).
  replace (S (length l1)) with (length (l1 ++ [y]))
    by (rewrite length_app; simpl; lia).
  rewrite IH. reflexivity.
Qed.

Lemma assign_range_mid (dt : dtype) (val : Q) (start last : nat)
  (mid : list Q) (midl : list (nat * nat))
  (l1 l3 : list Q) (m1 m3 : list (nat * nat)) :
  length m1 = length l1 -> length midl = length mid ->
  assign_range dt val start last (seq (length l1) (length mid))
    (mkState (l1 ++ mid ++ l3) (m1 ++ midl ++ m3)) =
  Ok (mkState (l1 ++ repeat (cast dt val) (length mid) ++ l3)
              (m1 ++ repeat (start, last) (length mid) ++ m3)).
Proof.
  revert midl l1 m1.
  induction mid as [| y mid IH]; intros midl l1 m1 Hm Hmid.
  - destruct midl; [reflexivity | discriminate].
  - destruct midl as [| z midl]; [discriminate |].
    simpl length. simpl seq. cbn [assign_range v lvlsets].
    change ((y :: mid) ++ l3) with (y :: (mid ++ l3)).
    change ((z :: midl) ++ m3) with (z :: (midl ++ m3)).
    rewrite setitem_head. cbn [bind].
    rewrite <- Hm, setitem_head. cbn [bind].
    replace (l1 ++ cast dt val :: mid ++ l3)
      with ((l1 ++ [cast dt val]) ++ mid ++ l3)
      by (rewrite <- app_assoc; reflexivity).
    replace (m1 ++ (start, last) :: midl ++ m3)
      with ((m1 ++ [(start, last)]) ++ midl ++ m3)
      by (rewrite <- app_assoc; reflexivity).
    replace (S (length m1)) with (length (l1 ++ [cast dt val]))
      by (rewrite length_app; simpl; lia).
    rewrite IH.
    + rewrite <- !app_assoc. reflexivity.
    + rewrite !length_app. simpl. lia.
    + simpl in Hmid. lia.
Qed.

(** One pass on two adjacent runs [a^na b^nb] that start at index
    [length l1], when the first violation is the border between them. *)
Lemma pool_layout (dt : dtype) (st : state)
  (l1 l3 : list Q) (m1 m3 : list (nat * nat))
  (a b : Q) (na nb lastA startB : nat) (rest : list nat) :
  length m1 = length l1 -> (0 < na)%nat -> (0 < nb)%nat ->
  v st = l1 ++ (repeat a na ++ repeat b nb) ++ l3 ->
  lvlsets st =
    m1 ++ (repeat (length l1, lastA) na ++
           repeat (startB, length l1 + na + nb - 1)%nat nb) ++ m3 ->
  forallb (fun d => Qle_bool 0 d) (AUC.diff (v st)) = false ->
  where_neg 0 (AUC.diff (v st)) = (length l1 + na - 1)%nat :: rest ->
  pool dt st =
  Ok (Some (mkState
    (l1 ++ repeat (cast dt (fold_left Qplus (repeat a na ++ repeat b nb) 0 /
                            inject_Z (Z.of_nat (na + nb)))) (na + nb) ++ l3)
    (m1 ++ repeat (length l1, length l1 + na + nb - 1)%nat (na + nb) ++ m3))).
Proof.
  intros Hm Hna Hnb Hv Hl Hbad Hviol.
  unfold pool. rewrite Hbad, Hviol.
  change (getitem ((length l1 + na - 1)%nat :: rest) 0) with (Ok (length l1 + na - 1)%nat).
  cbn [bind]. rewrite Hl.
  (* the level set of the violating index *)
  replace (length l1 + na - 1)%nat with (length m1 + (na - 1))%nat at 1 by lia.
  rewrite getitem_app_skip, <- app_assoc, getitem_repeat by lia.
  cbn [bind fst].
  (* and of its right neighbour *)
  replace (length l1 + na - 1 + 1)%nat with (length m1 + (na + 0))%nat by lia.
  rewrite getitem_app_skip.
  replace (na + 0)%nat with (length (repeat (length l1, lastA) na) + 0)%nat
    by (rewrite repeat_length; reflexivity).
  rewrite getitem_app_skip, getitem_repeat by lia.
  cbn [bind snd].
  assert (Hrange : range (length l1) (length l1 + na + nb - 1) =
                   seq (length l1) (length (repeat a na ++ repeat b nb))).
  { unfold range. rewrite length_app, !repeat_length. f_equal. lia. }
  rewrite Hrange, Hv, sum_range_mid. cbn [bind].
  replace (Z.of_nat (length l1 + na + nb - 1) - Z.of_nat (length l1) + 1)%Z
    with (Z.of_nat (na + nb)) by lia.
  replace st with (mkState (v st) (lvlsets st)) by (destruct st; reflexivity).
  rewrite Hv, Hl.
  rewrite assign_range_mid.
  - cbn [bind]. rewrite length_app, !repeat_length. reflexivity.
  - exact Hm.
  - rewrite !length_app, !repeat_length. reflexivity.
Qed.

End PAVArrays.

(** *** One pass, on blocks *)

Section PAVPool.
Import PAV.

Variable dt : dtype.

Lemma size_pooled (A B : block) : size (pooled dt A B) = (size A + size B)%nat.
Proof. unfold size, pooled. simpl. apply length_app. Qed.

Lemma pool_cases (bs : list block) (st : state) :
  represents bs st ->
  (pool dt st = Ok None /\ AUC.nondecreasing (v st)) \/
  (exists pre A B post st',
     bs = pre ++ A :: B :: post /\ snd B < snd A /\
     pool dt st = Ok (Some st') /\
     represents (pre ++ pooled dt A B :: post) st').
Proof.
  intros (Hv & Hl & Hne).
  destruct (first_violation bs 0 Hne)
    as [Hok | (Hbad & pre & A & B & post & rest & Hbs & Hlt & Hw)].
  - left. rewrite <- Hv in Hok. split.
    + unfold pool. rewrite Hok. reflexivity.
    + apply forallb_diff_nondecreasing, Hok.
  - right. exists pre, A, B, post.
    assert (HneA : nonempty A /\ nonempty B /\ Forall nonempty pre /\ Forall nonempty post).
    { rewrite Hbs in Hne. apply Forall_app in Hne. destruct Hne as [Hpre Hrest].
      inversion Hrest as [| ? ? HA Hrest']; subst.
      inversion Hrest' as [| ? ? HB Hpost]; subst. auto. }
    destruct HneA as (HA & HB & Hpre & Hpost). unfold nonempty in HA, HB.
    assert (Hv' : v st = conc_v pre ++
                    (repeat (snd A) (size A) ++ repeat (snd B) (size B)) ++ conc_v post).
    { rewrite Hv, Hbs, conc_v_app, !conc_v_cons, <- app_assoc. reflexivity. }
    assert (Hl' : lvlsets st = conc_l 0 pre ++
       (repeat (length (conc_v pre), (total pre + size A - 1)%nat) (size A) ++
        repeat ((total pre + size A)%nat,
                (length (conc_v pre) + size A + size B - 1)%nat) (size B)) ++
       conc_l (total pre + size A + size B) post).
    { rewrite Hl, Hbs, conc_l_app. cbn [conc_l]. rewrite conc_v_length.
      rewrite Nat.add_0_l, <- app_assoc. reflexivity. }
    eexists. split; [exact Hbs |]. split; [exact Hlt |]. split.
    + apply (pool_layout dt st (conc_v pre) (conc_v post) (conc_l 0 pre)
               (conc_l (total pre + size A + size B) post)
               (snd A) (snd B) (size A) (size B)
               (total pre + size A - 1)%nat (total pre + size A)%nat rest).
      * rewrite conc_l_length, conc_v_length. reflexivity.
      * exact HA.
      * exact HB.
      * exact Hv'.
      * exact Hl'.
      * rewrite Hv. exact Hbad.
      * rewrite Hv, Hw, conc_v_length. reflexivity.
    + unfold represents. cbn [v lvlsets]. split; [| split].
      * rewrite conc_v_app, conc_v_cons, size_pooled. reflexivity.
      * rewrite conc_l_app. cbn [conc_l]. rewrite size_pooled, conc_v_length.
        rewrite Nat.add_0_l, !Nat.add_assoc. reflexivity.
      * apply Forall_app. split; [exact Hpre |].
        constructor; [| exact Hpost].
        unfold nonempty. rewrite size_pooled. lia.
Qed.

(** *** Counting level sets *)

Lemma nodup_repeat_fresh (x : nat * nat) (n : nat) (l : list (nat * nat)) :
  ~ In x l ->
  nodup eq_lvl (repeat x (S n) ++ l) = x :: nodup eq_lvl l.
Proof.
  intro Hx. induction n as [| n IH].
  - simpl. destruct (in_dec eq_lvl x l); [contradiction | reflexivity].
  - change (repeat x (S (S n)) ++ l) with (x :: (repeat x (S n) ++ l)).
    cbn [nodup].
    destruct (in_dec eq_lvl x (repeat x (S n) ++ l)) as [_ | Hn].
    + exact IH.
    + exfalso. apply Hn. left. reflexivity.
Qed.

Lemma conc_l_starts (off : nat) (bs : list block) (x : nat * nat) :
  In x (conc_l off bs) -> (off <= fst x)%nat.
Proof.
  revert off. induction bs as [| b bs IH]; intros off H; [contradiction |].
  simpl in H. apply in_app_iff in H. destruct H as [H | H].
  - apply repeat_spec in H. subst x. simpl. lia.
  - apply IH in H. lia.
Qed.

Lemma nodup_conc_l (off : nat) (bs : list block) :
  Forall nonempty bs ->
  length (nodup eq_lvl (conc_l off bs)) = length bs.
Proof.
  intro Hne. revert off. induction Hne as [| b bs Hb _ IH]; intro off; [reflexivity |].
  cbn [conc_l]. unfold nonempty in Hb.
  destruct (size b) as [| n] eqn:E; [lia |].
  rewrite nodup_repeat_fresh.
  - simpl. rewrite IH. reflexivity.
  - intro H. apply conc_l_starts in H. simpl in H. lia.
Qed.

Lemma nlevels_blocks (bs : list block) (st : state) :
  represents bs st -> nlevels st = length bs.
Proof.
  intros (_ & Hl & Hne). unfold nlevels. rewrite Hl. apply nodup_conc_l, Hne.
Qed.

Lemma conc_l_singletons (off : nat) (y : list Q) :
  conc_l off (singletons y) = map (fun i => (i, i)) (seq off (length y)).
Proof.
  revert off. induction y as [| a y IH]; intro off; [reflexivity |].
  change (conc_l off (singletons (a :: y)))
    with ((off, off + 1 - 1)%nat :: conc_l (off + 1) (singletons y)).
  rewrite IH. replace (off + 1 - 1)%nat with off by lia.
  rewrite Nat.add_1_r. reflexivity.
Qed.

Lemma represents_init (y : list Q) : represents (singletons y) (init y).
Proof.
  unfold represents, init. cbn [v lvlsets]. split; [| split].
  - induction y as [| a y IH]; [reflexivity |].
    unfold conc_v in *. simpl. f_equal. exact IH.
  - symmetry. apply conc_l_singletons.
  - unfold singletons. apply Forall_map. apply Forall_forall.
    intros a _. unfold nonempty, size. simpl. lia.
Qed.

Lemma total_singletons (y : list Q) : total (singletons y) = length y.
Proof.
  unfold total. induction y as [| a y IH]; [reflexivity |].
  simpl. f_equal. exact IH.
Qed.

(** *** Termination *)

(** Each pass removes one level set. *)
Lemma pool_decreases (bs : list block) (st st' : state) :
  represents bs st -> pool dt st = Ok (Some st') ->
  exists bs', represents bs' st' /\ S (length bs') = length bs /\
              total bs' = total bs.
Proof.
  intros Hrep Hpool.
  destruct (pool_cases bs st Hrep)
    as [[Hnone _] | (pre & A & B & post & st1 & Hbs & _ & Hsome & Hrep')].
  - congruence.
  - assert (st1 = st') by congruence. subst st1.
    exists (pre ++ pooled dt A B :: post). split; [exact Hrep' |].
    rewrite Hbs, !length_app. simpl. split; [lia |].
    rewrite !total_app, !total_cons, size_pooled. lia.
Qed.

Lemma pools_blocks (k : nat) (st st' : state) :
  pools dt k st st' ->
  forall bs, represents bs st ->
  exists bs', represents bs' st' /\ (length bs' + k = length bs)%nat /\
              total bs' = total bs.
Proof.
  induction 1 as [st | k st st1 st2 Hpool _ IH]; intros bs Hrep.
  - exists bs. split; [exact Hrep | split; [lia | reflexivity]].
  - destruct (pool_decreases bs st st1 Hrep Hpool) as (bs1 & Hrep1 & Hlen1 & Htot1).
    destruct (IH bs1 Hrep1) as (bs2 & Hrep2 & Hlen2 & Htot2).
    exists bs2. split; [exact Hrep2 | split; [lia | congruence]].
Qed.

(** From any state that blocks describe, the loop leaves after fewer
    passes than there are blocks. *)
Lemma pav_while_terminates (m : nat) :
  forall bs st, length bs = m -> represents bs st ->
  exists k st' bs',
    pools dt k st st' /\ represents bs' st' /\
    (k + length bs' = m)%nat /\
    pool dt st' = Ok None /\ AUC.nondecreasing (v st') /\
    forall fuel, (k < fuel)%nat -> pav_while fuel dt st = Ok (Some st').
Proof.
  induction m as [m IH] using lt_wf_ind. intros bs st Hlen Hrep.
  destruct (pool_cases bs st Hrep)
    as [[Hnone Hmono] | (pre & A & B & post & st1 & Hbs & _ & Hsome & Hrep1)].
  - exists 0%nat, st, bs.
    split; [constructor |]. split; [exact Hrep |]. split; [exact Hlen |].
    split; [exact Hnone |]. split; [exact Hmono |].
    intros fuel Hfuel. destruct fuel as [| fuel]; [lia |].
    simpl. rewrite Hnone. reflexivity.
  - assert (Hlen1 : S (length (pre ++ pooled dt A B :: post)) = m).
    { rewrite <- Hlen, Hbs, !length_app. simpl. lia. }
    destruct (IH (length (pre ++ pooled dt A B :: post)) ltac:(lia) _ st1 eq_refl Hrep1)
      as (k & st' & bs' & Hpools & Hrep' & Hk & Hnone & Hmono & Hfuel).
    exists (S k), st', bs'.
    split; [econstructor; eassumption |]. split; [exact Hrep' |].
    split; [lia |]. split; [exact Hnone |]. split; [exact Hmono |].
    intros fuel Hf. destruct fuel as [| fuel]; [lia |].
    simpl. rewrite Hsome. cbn [bind]. apply Hfuel. lia.
Qed.

End PAVPool.

(** *** Sorting the input *)

Section PAVSort.
Import PAV.

Lemma insert_idx_In (score : list Q) (i x : nat) (l : list nat) :
  In x (insert_idx score i l) -> x = i \/ In x l.
Proof.
  induction l as [| j l IH]; simpl.
  - intros [<- | []]. left. reflexivity.
  - destruct (Qlt_bool (nth i score 0) (nth j score 0)); simpl.
    + intros [<- | H]; [left; reflexivity | right; exact H].
    + intros [<- | H]; [right; left; reflexivity |].
      destruct (IH H) as [-> | H']; [left; reflexivity | right; right; exact H'].
Qed.

Lemma insert_idx_length (score : list Q) (i : nat) (l : list nat) :
  length (insert_idx score i l) = S (length l).
Proof.
  induction l as [| j l IH]; simpl; [reflexivity |].
  destruct (Qlt_bool (nth i score 0) (nth j score 0)); simpl; [reflexivity |].
  rewrite IH. reflexivity.
Qed.

Lemma argsort_fold (score : list Q) (idx acc : list nat) (n : nat) :
  Forall (fun i => (i < n)%nat) idx -> Forall (fun i => (i < n)%nat) acc ->
  let r := fold_left (fun acc i => insert_idx score i acc) idx acc in
  Forall (fun i => (i < n)%nat) r /\ length r = (length idx + length acc)%nat.
Proof.
  revert acc. induction idx as [| i idx IH]; intros acc Hidx Hacc; simpl.
  - split; [exact Hacc | reflexivity].
  - inversion Hidx as [| ? ? Hi Hidx']; subst.
    destruct (IH (insert_idx score i acc) Hidx') as [H1 H2].
    + apply Forall_forall. intros x Hx. apply insert_idx_In in Hx.
      destruct Hx as [-> | Hx]; [exact Hi |].
      rewrite Forall_forall in Hacc. apply Hacc, Hx.
    + split; [exact H1 |]. rewrite H2, insert_idx_length. lia.
Qed.

Lemma argsort_spec (score : list Q) :
  Forall (fun i => (i < length score)%nat) (argsort score) /\
  length (argsort score) = length score.
Proof.
  unfold argsort.
  destruct (argsort_fold score (seq 0 (length score)) [] (length score)) as [H1 H2].
  - apply Forall_forall. intros x Hx. apply in_seq in Hx. lia.
  - constructor.
  - split; [exact H1 |]. rewrite H2, length_seq. simpl. lia.
Qed.

Lemma take_ok (target : list Q) (idx : list nat) :
  Forall (fun i => (i < length target)%nat) idx ->
  exists t, take target idx = Ok t /\ length t = length idx /\
            t = map (fun i => nth i target 0) idx.
Proof.
  induction 1 as [| i idx Hi _ (t & E & Hlen & Hmap)]; simpl.
  - exists []. repeat split; reflexivity.
  - rewrite (getitem_nth target i 0 Hi), E. cbn [bind].
    eexists. split; [reflexivity |]. simpl. rewrite Hlen, Hmap. split; reflexivity.
Qed.

Lemma nondecreasing_cons (a : Q) (l : list Q) :
  AUC.nondecreasing (a :: l) <->
  match l with [] => True | b :: _ => a <= b end /\ AUC.nondecreasing l.
Proof.
  destruct l as [| b l]; simpl; tauto.
Qed.

Lemma insert_idx_sorted (score : list Q) (i : nat) (l : list nat) :
  AUC.nondecreasing (in_order score l) ->
  AUC.nondecreasing (in_order score (insert_idx score i l)).
Proof.
  induction l as [| j l IH]; intro H; [exact I |].
  cbn [insert_idx].
  destruct (Qlt_bool (nth i score 0) (nth j score 0)) eqn:E.
  - apply Qlt_bool_iff in E.
    change (in_order score (i :: j :: l))
      with (nth i score 0 :: in_order score (j :: l)).
    apply nondecreasing_cons. split; [simpl; lra | exact H].
  - apply Qlt_bool_false_iff in E.
    change (in_order score (j :: l)) with (nth j score 0 :: in_order score l) in H.
    apply nondecreasing_cons in H. destruct H as [Hhd Htl].
    change (in_order score (j :: insert_idx score i l))
      with (nth j score 0 :: in_order score (insert_idx score i l)).
    apply nondecreasing_cons. split; [| apply IH, Htl].
    destruct l as [| j' l]; [exact E |].
    cbn [insert_idx].
    destruct (Qlt_bool (nth i score 0) (nth j' score 0)); simpl; [exact E | exact Hhd].
Qed.

Lemma insert_idx_perm (score : list Q) (i : nat) (l : list nat) :
  Permutation (insert_idx score i l) (i :: l).
Proof.
  induction l as [| j l IH]; simpl; [reflexivity |].
  destruct (Qlt_bool (nth i score 0) (nth j score 0)); [reflexivity |].
  rewrite IH. apply perm_swap.
Qed.

Lemma argsort_fold_sorted (score : list Q) (idx acc : list nat) :
  AUC.nondecreasing (in_order score acc) ->
  let r := fold_left (fun acc i => insert_idx score i acc) idx acc in
  AUC.nondecreasing (in_order score r) /\ Permutation r (idx ++ acc).
Proof.
  revert acc. induction idx as [| i idx IH]; intros acc Hacc; simpl.
  - split; [exact Hacc | reflexivity].
  - destruct (IH (insert_idx score i acc) (insert_idx_sorted score i acc Hacc))
      as [H1 H2].
    split; [exact H1 |].
    rewrite H2, insert_idx_perm. symmetry. apply Permutation_middle.
Qed.

(** [argsort] lists every index once, in ascending order of score. *)
Lemma argsort_sorts (score : list Q) :
  AUC.nondecreasing (in_order score (argsort score)) /\
  Permutation (argsort score) (seq 0 (length score)).
Proof.
  unfold argsort.
  destruct (argsort_fold_sorted score (seq 0 (length score)) [] I) as [H1 H2].
  split; [exact H1 |]. rewrite app_nil_r in H2. exact H2.
Qed.

End PAVSort.

(** C8.  For inputs of equal length the loop of [pav_rocch] leaves after
    at most [n-1] pooling passes with [v] non-decreasing, any larger
    amount of fuel gives that result, and every pass on the way removes
    exactly one level set. *)
Theorem pav_rocch_terminates (dt : PAV.dtype) (target score : list Q) :
  length target = length score ->
  exists t k st,
    PAV.take target (PAV.argsort score) = Ok t /\
    length t = length target /\
    (k <= length target - 1)%nat /\
    PAV.pools dt k (PAV.init t) st /\
    PAV.pool dt st = Ok None /\
    AUC.nondecreasing (PAV.v st) /\
    (forall fuel, (k < fuel)%nat ->
       PAV.pav_rocch fuel dt target score = Ok (Some (t, PAV.v st))) /\
    (forall j st1 st2,
       PAV.pools dt j (PAV.init t) st1 -> PAV.pool dt st1 = Ok (Some st2) ->
       S (PAV.nlevels st2) = PAV.nlevels st1).
Proof.
  intro Hlen.
  destruct (argsort_spec score) as [Hidx Hn].
  rewrite <- Hlen in Hidx.
  destruct (take_ok target (PAV.argsort score) Hidx) as (t & Et & Ht & Hmap).
  assert (Htn : length t = length target) by congruence.
  destruct (pav_while_terminates dt (length (singletons t)) (singletons t)
              (PAV.init t) eq_refl (represents_init t))
    as (k & st & bs & Hpools & Hrep & Hk & Hnone & Hmono & Hfuel).
  exists t, k, st.
  split; [exact Et |]. split; [exact Htn |].
  assert (Hsl : length (singletons t) = length t) by apply length_map.
  split.
  { destruct (pools_blocks dt k _ _ Hpools _ (represents_init t))
      as (bs' & Hrep' & Hlen' & Htot').
    rewrite total_singletons in Htot'.
    destruct bs' as [| b bs'].
    - unfold total in Htot'. simpl in Htot'. lia.
    - simpl in Hlen'. lia. }
  split; [exact Hpools |]. split; [exact Hnone |]. split; [exact Hmono |].
  split.
  - intros fuel Hf. unfold PAV.pav_rocch. rewrite Et. cbn [bind].
    rewrite (Hfuel fuel Hf). reflexivity.
  - intros j st1 st2 Hj Hp.
    destruct (pools_blocks dt j _ _ Hj _ (represents_init t)) as (bs1 & Hrep1 & _ & _).
    destruct (pool_decreases dt bs1 st1 st2 Hrep1 Hp) as (bs2 & Hrep2 & Hlen2 & _).
    rewrite (nlevels_blocks bs1 st1 Hrep1), (nlevels_blocks bs2 st2 Hrep2).
    exact Hlen2.
Qed.

Lemma pav_rocch_terminates_witness :
  exists t k st,
    PAV.take [1; 0; 1; 0] (PAV.argsort [1 # 10; 2 # 10; 3 # 10; 4 # 10]) = Ok t /\
    length t = 4%nat /\
    (k <= 4 - 1)%nat /\
    PAV.pools PAV.int64 k (PAV.init t) st /\
    PAV.pool PAV.int64 st = Ok None /\
    AUC.nondecreasing (PAV.v st) /\
    (forall fuel, (k < fuel)%nat ->
       PAV.pav_rocch fuel PAV.int64 [1; 0; 1; 0] [1 # 10; 2 # 10; 3 # 10; 4 # 10] =
       Ok (Some (t, PAV.v st))) /\
    (forall j st1 st2,
       PAV.pools PAV.int64 j (PAV.init t) st1 ->
       PAV.pool PAV.int64 st1 = Ok (Some st2) ->
       S (PAV.nlevels st2) = PAV.nlevels st1).
Proof.
  apply (pav_rocch_terminates PAV.int64 [1; 0; 1; 0]
           [1 # 10; 2 # 10; 3 # 10; 4 # 10]).
  reflexivity.
Defined.

(** ** [pav_rocch]: the isotonic regression *)

Section Isotonic.
Import PAV.

Lemma qlen_cons (a : Q) (l : list Q) : qlen (a :: l) == qlen l + 1.
Proof.
  unfold qlen. simpl length. rewrite Nat2Z.inj_succ, <- Z.add_1_r, inject_Z_plus.
  reflexivity.
Qed.

Lemma qlen_nonneg (l : list Q) : 0 <= qlen l.
Proof.
  unfold qlen. change 0 with (inject_Z 0). rewrite <- Zle_Qle. lia.
Qed.

Lemma excess_app (c S : Q) (l1 l2 : list Q) :
  excess c S (l1 ++ l2) = excess c (excess c S l1) l2.
Proof.
  revert S. induction l1 as [| y l1 IH]; intro S; [reflexivity | apply IH].
Qed.

Lemma prefix_ok_app (c S : Q) (l1 l2 : list Q) :
  prefix_ok c S l1 -> prefix_ok c (excess c S l1) l2 -> prefix_ok c S (l1 ++ l2).
Proof.
  revert S. induction l1 as [| y l1 IH]; intros S H1 H2.
  - exact H2.
  - destruct H1 as [HS H1]. split; [exact HS | apply IH; assumption].
Qed.

Lemma prefix_ok_start (c S : Q) (ys : list Q) : prefix_ok c S ys -> 0 <= S.
Proof. destruct ys; intros [H _]; exact H. Qed.

Lemma excess_shift (c c' : Q) (ys : list Q) (S S' : Q) :
  excess c' S' ys == excess c S ys + (S' - S) + qlen ys * (c - c').
Proof.
  revert S S'. induction ys as [| y ys IH]; intros S S'.
  - simpl. unfold qlen. simpl. ring.
  - simpl excess. rewrite (IH (S + y - c) (S' + y - c')), qlen_cons. ring.
Qed.

(** Lowering the level, or raising the start, keeps prefixes in order. *)
Lemma prefix_ok_raise (b m : Q) (ys : list Q) (S E : Q) :
  prefix_ok b S ys -> b <= m -> S + qlen ys * (m - b) <= E ->
  prefix_ok m E ys.
Proof.
  intros H Hbm. revert S E H. induction ys as [| y ys IH]; intros S E H HE.
  - destruct H as [HS _].
    assert (Hq : qlen [] * (m - b) == 0) by (unfold qlen; simpl; ring).
    split; [lra | exact I].
  - destruct H as [HS H]. rewrite qlen_cons in HE.
    assert (Hn : 0 <= qlen ys * (m - b)).
    { apply Qmult_le_0_compat; [apply qlen_nonneg | lra]. }
    split; [lra |].
    apply (IH (S + y - b)); [exact H | lra].
Qed.

Lemma prefix_ok_lower (a m : Q) (ys : list Q) (S : Q) :
  prefix_ok a S ys -> m <= a -> prefix_ok m S ys.
Proof.
  intros H Hma. revert S H. 
  assert (G : forall S S', prefix_ok a S ys -> S <= S' -> prefix_ok m S' ys).
  { induction ys as [| y ys IH]; intros S S' [HS H] HSS'.
    - split; [lra | exact I].
    - split; [lra |]. apply (IH (S + y - a)); [exact H | lra]. }
  intros S H. apply (G S S H). lra.
Qed.

Lemma fold_left_Qplus (l : list Q) (s : Q) : fold_left Qplus l s == s + qsum l.
Proof.
  revert s. induction l as [| a l IH]; intro s; simpl; [ring |].
  rewrite IH. ring.
Qed.

Lemma qsum_app (l1 l2 : list Q) : qsum (l1 ++ l2) == qsum l1 + qsum l2.
Proof.
  induction l1 as [| a l1 IH]; simpl; [ring | rewrite IH; ring].
Qed.

Lemma qsum_repeat (a : Q) (n : nat) :
  qsum (repeat a n) == inject_Z (Z.of_nat n) * a.
Proof.
  induction n as [| n IH].
  - simpl. ring.
  - simpl repeat. simpl qsum. rewrite IH, Nat2Z.inj_succ, <- Z.add_1_r, inject_Z_plus.
    ring.
Qed.

Lemma pooled_level (A B : block) :
  nonempty A ->
  snd (pooled float64 A B) * (qlen (fst A) + qlen (fst B)) ==
  qlen (fst A) * snd A + qlen (fst B) * snd B.
Proof.
  intro HA. unfold pooled, cast. cbn [snd].
  rewrite fold_left_Qplus, qsum_app, !qsum_repeat.
  rewrite Nat2Z.inj_add, inject_Z_plus.
  change (inject_Z (Z.of_nat (size A))) with (qlen (fst A)).
  change (inject_Z (Z.of_nat (size B))) with (qlen (fst B)).
  assert (H1 : 0 < qlen (fst A)).
  { unfold qlen. change 0 with (inject_Z 0). rewrite <- Zlt_Qlt.
    unfold nonempty, size in HA. lia. }
  pose proof (qlen_nonneg (fst B)) as H2.
  field. lra.
Qed.

Lemma scaled_nonneg (n x : Q) : 0 < n -> 0 <= n * x -> 0 <= x.
Proof.
  intros Hn H. destruct (Qlt_le_dec x 0) as [Hx | Hx]; [| exact Hx].
  exfalso. assert (0 < n * (- x)) by (apply Qmult_lt_0_compat; lra). lra.
Qed.

(** Pooling a block with a lower right neighbour gives a block again. *)
Lemma iso_pooled (A B : block) :
  nonempty A -> nonempty B -> iso_block A -> iso_block B ->
  snd B <= snd A -> iso_block (pooled float64 A B).
Proof.
  intros HA HB [HpA HeA] [HpB HeB] Hba.
  pose proof (pooled_level A B HA) as Hm.
  set (m := snd (pooled float64 A B)) in *.
  assert (HNA : 0 < qlen (fst A)).
  { unfold qlen. change 0 with (inject_Z 0). rewrite <- Zlt_Qlt.
    unfold nonempty, size in HA. lia. }
  assert (HNB : 0 < qlen (fst B)).
  { unfold qlen. change 0 with (inject_Z 0). rewrite <- Zlt_Qlt.
    unfold nonempty, size in HB. lia. }
  assert (Hab : 0 <= qlen (fst B) * (snd A - snd B))
    by (apply Qmult_le_0_compat; lra).
  assert (Hab' : 0 <= qlen (fst A) * (snd A - snd B))
    by (apply Qmult_le_0_compat; lra).
  assert (Hma : m <= snd A).
  { assert (0 <= snd A - m); [| lra].
    apply (scaled_nonneg (qlen (fst A) + qlen (fst B))); lra. }
  assert (Hbm : snd B <= m).
  { assert (0 <= m - snd B); [| lra].
    apply (scaled_nonneg (qlen (fst A) + qlen (fst B))); lra. }
  pose proof (excess_shift (snd A) m (fst A) 0 0) as EA.
  pose proof (excess_shift (snd B) m (fst B) 0 (excess m 0 (fst A))) as EB.
  unfold iso_block. change (fst (pooled float64 A B)) with (fst A ++ fst B).
  change (snd (pooled float64 A B)) with m.
  split.
  - apply prefix_ok_app.
    + apply (prefix_ok_lower (snd A)); assumption.
    + apply (prefix_ok_raise (snd B) m (fst B) 0); [exact HpB | exact Hbm | lra].
  - rewrite excess_app. lra.
Qed.

(** Summation by parts on one block. *)
Lemma abel (c : Q) (ys : list Q) :
  forall (ws : list Q) (S x z : Q),
    length ws = length ys -> between x ws z -> prefix_ok c S ys ->
    excess c S ys * (c - z) <= S * (c - x) + cross ys (repeat c (length ys)) ws.
Proof.
  induction ys as [| y ys IH]; intros ws S x z Hlen Hbt Hp.
  - destruct ws; [| discriminate]. simpl in *. destruct Hp as [HS _].
    assert (0 <= S * (z - x)) by (apply Qmult_le_0_compat; lra). lra.
  - destruct ws as [| w ws]; [discriminate |].
    destruct Hbt as [Hxw Hbt]. destruct Hp as [HS Hp].
    simpl length. simpl repeat. simpl excess. simpl cross.
    assert (Hl : length ws = length ys) by (simpl in Hlen; lia).
    pose proof (IH ws (S + y - c) w z Hl Hbt Hp) as H.
    assert (0 <= S * (w - x)) by (apply Qmult_le_0_compat; lra). lra.
Qed.

Lemma nondecreasing_between (ws : list Q) (w : Q) :
  AUC.nondecreasing (w :: ws) -> exists z, between w ws z.
Proof.
  revert w. induction ws as [| w' ws IH]; intros w H.
  - exists w. simpl. lra.
  - destruct H as [Hww' H]. destruct (IH w' H) as (z & Hz).
    exists z. split; assumption.
Qed.

Lemma nondecreasing_app (w1 w2 : list Q) :
  AUC.nondecreasing (w1 ++ w2) -> AUC.nondecreasing w1 /\ AUC.nondecreasing w2.
Proof.
  induction w1 as [| a [| b w1] IH]; intro H.
  - split; [exact I | exact H].
  - split; [exact I |]. destruct w2 as [| c w2]; [exact I | apply H].
  - destruct H as [Hab H]. destruct (IH H) as [H1 H2].
    split; [split; assumption | exact H2].
Qed.

Lemma block_cross_nonneg (b : block) (ws : list Q) :
  iso_block b -> length ws = size b -> AUC.nondecreasing ws ->
  0 <= cross (fst b) (repeat (snd b) (size b)) ws.
Proof.
  intros [Hp He] Hlen Hmono.
  destruct ws as [| w ws].
  - unfold size in *. destruct (fst b); [simpl; lra | discriminate Hlen].
  - destruct (nondecreasing_between ws w Hmono) as (z & Hz).
    assert (Hbt : between w (w :: ws) z) by (split; [lra | exact Hz]).
    pose proof (abel (snd b) (fst b) (w :: ws) 0 w z Hlen Hbt Hp) as H.
    fold (size b) in H.
    assert (E : excess (snd b) 0 (fst b) * (snd b - z) == 0) by (rewrite He; ring).
    lra.
Qed.

Lemma cross_app (y1 u1 w1 y2 u2 w2 : list Q) :
  length u1 = length y1 -> length w1 = length y1 ->
  cross (y1 ++ y2) (u1 ++ u2) (w1 ++ w2) == cross y1 u1 w1 + cross y2 u2 w2.
Proof.
  revert u1 w1. induction y1 as [| a y1 IH]; intros u1 w1 Hu Hw.
  - destruct u1; [| discriminate]. destruct w1; [| discriminate]. simpl. ring.
  - destruct u1 as [| b u1]; [discriminate |].
    destruct w1 as [| c w1]; [discriminate |].
    simpl. rewrite IH by (simpl in *; lia). ring.
Qed.

Lemma blocks_cross_nonneg (bs : list block) :
  Forall iso_block bs ->
  forall ws, length ws = total bs -> AUC.nondecreasing ws ->
  0 <= cross (flat_map fst bs) (conc_v bs) ws.
Proof.
  induction 1 as [| b bs Hb _ IH]; intros ws Hlen Hmono.
  - simpl. lra.
  - rewrite total_cons in Hlen.
    rewrite <- (firstn_skipn (size b) ws) in Hmono |- *.
    apply nondecreasing_app in Hmono. destruct Hmono as [H1 H2].
    assert (L1 : length (firstn (size b) ws) = size b)
      by (rewrite length_firstn; lia).
    assert (L2 : length (skipn (size b) ws) = total bs)
      by (rewrite length_skipn; lia).
    rewrite conc_v_cons. cbn [flat_map].
    rewrite cross_app.
    + pose proof (block_cross_nonneg b _ Hb L1 H1).
      pose proof (IH _ L2 H2). lra.
    + rewrite repeat_length. reflexivity.
    + exact L1.
Qed.

Lemma sse_split (y u w : list Q) :
  length u = length y -> length w = length y ->
  sse y w == sse y u + sse u w + 2 * cross y u w.
Proof.
  revert u w. induction y as [| a y IH]; intros u w Hu Hw.
  - destruct u; [| discriminate]. destruct w; [| discriminate]. simpl. ring.
  - destruct u as [| b u]; [discriminate |].
    destruct w as [| c w]; [discriminate |].
    simpl. rewrite (IH u w) by (simpl in *; lia). ring.
Qed.

Lemma square_nonneg (x : Q) : 0 <= x * x.
Proof.
  destruct (Qlt_le_dec x 0) as [H | H].
  - assert (0 <= (- x) * (- x)) by (apply Qmult_le_0_compat; lra). lra.
  - apply Qmult_le_0_compat; exact H.
Qed.

Lemma sse_nonneg (u w : list Q) : 0 <= sse u w.
Proof.
  revert w. induction u as [| a u IH]; intro w; [simpl; lra |].
  destruct w as [| b w]; [simpl; lra |].
  simpl. pose proof (IH w). pose proof (square_nonneg (a - b)). lra.
Qed.

(** Blocks that are all pooled blocks and whose levels are in order give
    the least-squares non-decreasing fit of the values they pool. *)
Lemma blocks_optimal (bs : list block) (ws : list Q) :
  Forall iso_block bs ->
  length ws = total bs -> AUC.nondecreasing ws ->
  sse (flat_map fst bs) (conc_v bs) <= sse (flat_map fst bs) ws.
Proof.
  intros Hiso Hlen Hmono.
  rewrite (sse_split (flat_map fst bs) (conc_v bs) ws).
  - pose proof (blocks_cross_nonneg bs Hiso ws Hlen Hmono).
    pose proof (sse_nonneg (conc_v bs) ws). lra.
  - apply conc_v_length.
  - exact Hlen.
Qed.

End Isotonic.

(** *** The loop keeps pooled blocks pooled *)

Section IsotonicLoop.
Import PAV.

Lemma iso_singletons (y : list Q) :
  Forall iso_block (singletons y) /\ flat_map fst (singletons y) = y.
Proof.
  induction y as [| a y [IH1 IH2]]; [split; [constructor | reflexivity] |].
  split.
  - constructor; [| exact IH1].
    unfold iso_block. simpl. repeat split; first [lra | ring].
  - simpl. f_equal. exact IH2.
Qed.

Lemma pool_iso (bs : list block) (st st' : state) :
  represents bs st -> Forall iso_block bs ->
  pool float64 st = Ok (Some st') ->
  exists bs', represents bs' st' /\ Forall iso_block bs' /\
              flat_map fst bs' = flat_map fst bs.
Proof.
  intros Hrep Hiso Hpool.
  destruct (pool_cases float64 bs st Hrep)
    as [[Hnone _] | (pre & A & B & post & st1 & Hbs & Hlt & Hsome & Hrep')].
  - congruence.
  - assert (st1 = st') by congruence. subst st1.
    exists (pre ++ pooled float64 A B :: post).
    destruct Hrep as (_ & _ & Hne).
    rewrite Hbs in Hiso, Hne.
    apply Forall_app in Hiso. destruct Hiso as [Hpre Hrest].
    inversion Hrest as [| ? ? HA Hrest']; subst.
    inversion Hrest' as [| ? ? HB Hpost]; subst.
    apply Forall_app in Hne. destruct Hne as [_ Hne].
    inversion Hne as [| ? ? NA Hne']; subst.
    inversion Hne' as [| ? ? NB _]; subst.
    split; [exact Hrep' |]. split.
    + apply Forall_app. split; [exact Hpre |].
      constructor; [| exact Hpost].
      apply iso_pooled; try assumption. lra.
    + rewrite !flat_map_app. simpl. rewrite <- app_assoc. reflexivity.
Qed.

Lemma pools_iso (k : nat) (st st' : state) :
  pools float64 k st st' ->
  forall bs, represents bs st -> Forall iso_block bs ->
  exists bs', represents bs' st' /\ Forall iso_block bs' /\
              flat_map fst bs' = flat_map fst bs.
Proof.
  induction 1 as [st | k st st1 st2 Hpool _ IH]; intros bs Hrep Hiso.
  - exists bs. auto.
  - destruct (pool_iso bs st st1 Hrep Hiso Hpool) as (bs1 & Hrep1 & Hiso1 & Hy1).
    destruct (IH bs1 Hrep1 Hiso1) as (bs2 & Hrep2 & Hiso2 & Hy2).
    exists bs2. split; [exact Hrep2 | split; [exact Hiso2 | congruence]].
Qed.

(** On a float array the loop ends with the isotonic regression of the
    values it started from. *)
Lemma pav_while_isotonic (y : list Q) :
  exists k st,
    (k <= length y - 1)%nat /\
    (forall fuel, (k < fuel)%nat -> pav_while fuel float64 (init y) = Ok (Some st)) /\
    length (v st) = length y /\
    AUC.nondecreasing (v st) /\
    forall w, length w = length y -> AUC.nondecreasing w ->
      sse y (v st) <= sse y w.
Proof.
  destruct (pav_while_terminates float64 (length (singletons y)) (singletons y)
              (init y) eq_refl (represents_init y))
    as (k & st & bs0 & Hpools & _ & _ & _ & Hmono & Hfuel).
  destruct (iso_singletons y) as [Hiso0 Hy0].
  destruct (pools_iso k _ _ Hpools _ (represents_init y) Hiso0)
    as (bs & Hrep & Hiso & Hy).
  destruct (pools_blocks float64 k _ _ Hpools _ (represents_init y))
    as (bs' & Hrep' & Hlen' & Htot').
  rewrite Hy0 in Hy.
  assert (Htot : total bs = length y) by (unfold total; rewrite Hy; reflexivity).
  exists k, st.
  split.
  { rewrite total_singletons in Htot'.
    assert (Hsl : length (singletons y) = length y) by apply length_map.
    destruct bs' as [| b bs'].
    - unfold total in Htot'. simpl in Htot'. simpl in Hlen'. lia.
    - simpl in Hlen'. lia. }
  split; [exact Hfuel |].
  destruct Hrep as (Hv & _ & _).
  split; [rewrite Hv, conc_v_length; exact Htot |].
  split; [exact Hmono |].
  intros w Hw Hwm. rewrite Hv, <- Hy.
  apply blocks_optimal; [exact Hiso | congruence | exact Hwm].
Qed.

End IsotonicLoop.

(** On float targets [pav_rocch] returns, with fuel beyond the number of
    samples, the targets in score order and their isotonic regression:
    a non-decreasing sequence of least squared error among all
    non-decreasing sequences of that length. *)
Theorem pav_rocch_float64_isotonic (target score : list Q) :
  length target = length score ->
  exists t u,
    Permutation (PAV.argsort score) (seq 0 (length score)) /\
    AUC.nondecreasing (in_order score (PAV.argsort score)) /\
    t = in_order target (PAV.argsort score) /\
    (forall fuel, (length target < fuel)%nat ->
       PAV.pav_rocch fuel PAV.float64 target score = Ok (Some (t, u))) /\
    length u = length t /\ length t = length target /\
    AUC.nondecreasing u /\
    forall w, length w = length t -> AUC.nondecreasing w ->
      PAV.sse t u <= PAV.sse t w.
Proof.
  intro Hlen.
  destruct (argsort_spec score) as [Hidx Hn].
  rewrite <- Hlen in Hidx.
  destruct (take_ok target (PAV.argsort score) Hidx) as (t & Et & Ht & Hmap).
  assert (Htn : length t = length target) by congruence.
  destruct (pav_while_isotonic t) as (k & st & Hk & Hfuel & Hlu & Hmono & Hopt).
  destruct (argsort_sorts score) as [Hsorted Hperm].
  exists t, (PAV.v st).
  split; [exact Hperm |]. split; [exact Hsorted |]. split; [exact Hmap |].
  split.
  - intros fuel Hf. unfold PAV.pav_rocch. rewrite Et. cbn [bind].
    rewrite (Hfuel fuel) by lia. reflexivity.
  - repeat split; assumption.
Qed.

(** C3.  The labels [1, 0] given as an integer array: the pooled mean 1/2
    is truncated when it is stored into [v], so [pav_rocch] returns
    [v = [0, 0]], whose squared error 1 against the sorted targets exceeds
    the 1/2 of the non-decreasing sequence [1/2, 1/2].  The same labels
    given as floats yield [1/2, 1/2]. *)
Theorem pav_rocch_int_labels_not_isotonic :
  PAV.pav_rocch 2 PAV.int64 [1; 0] [1 # 10; 2 # 10] = Ok (Some ([1; 0], [0; 0])) /\
  AUC.nondecreasing [1 # 2; 1 # 2] /\
  PAV.sse [1; 0] [1 # 2; 1 # 2] < PAV.sse [1; 0] [0; 0] /\
  exists a b,
    PAV.pav_rocch 2 PAV.float64 [1; 0] [1 # 10; 2 # 10] = Ok (Some ([1; 0], [a; b])) /\
    a == 1 # 2 /\ b == 1 # 2.
Proof.
  split; [reflexivity |].
  split; [simpl; split; [unfold Qle; simpl; lia | exact I] |].
  split; [reflexivity |].
  eexists. eexists. split; [vm_compute; reflexivity |].
  split; reflexivity.
Qed.

(** * Further properties *)

(** ** Scans that stop at the first match *)

Lemma first_true {A : Type} (f : A -> bool) (l : list A) :
  Exists (fun a => f a = true) l ->
  exists pre x post,
    l = pre ++ x :: post /\ Forall (fun a => f a = false) pre /\ f x = true.
Proof.
  induction l as [| a l IH]; intro H; [inversion H |].
  destruct (f a) eqn:E.
  - exists [], a, l. repeat split; [constructor | exact E].
  - assert (H' : Exists (fun a => f a = true) l).
    { inversion H as [? ? Ha | ? ? Hl]; subst; [congruence | exact Hl]. }
    destruct (IH H') as (pre & x & post & -> & Hpre & Hx).
    exists (a :: pre), x, post. repeat split; [constructor; assumption | exact Hx].
Qed.

Lemma nth_prefix {A : Type} (pre : list A) (x : A) (post : list A) (d : A) :
  nth (length pre) (pre ++ x :: post) d = x /\
  forall j, (j < length pre)%nat -> nth j (pre ++ x :: post) d = nth j pre d.
Proof.
  split.
  - rewrite app_nth2 by lia. rewrite Nat.sub_diag. reflexivity.
  - intros j Hj. apply app_nth1, Hj.
Qed.

Lemma Forall_nth_lt {A : Type} (P : A -> Prop) (l : list A) (d : A) (j : nat) :
  Forall P l -> (j < length l)%nat -> P (nth j l d).
Proof.
  intros H Hj. rewrite Forall_forall in H. apply H, nth_In, Hj.
Qed.

(** ** [decision_threshold] *)

Section ThresholdFacts.
Import Threshold.

Variables (fpr tpr : list Q) (dec_t : Q).

Lemma scan_skip (pre rest : list Q) (i : nat) :
  Forall (fun t => Qle_bool t dec_t = false) pre ->
  scan fpr tpr dec_t i (pre ++ rest) =
  scan fpr tpr dec_t (i + length pre) rest.
Proof.
  intro H. revert i. induction H as [| t pre Ht _ IH]; intro i; simpl.
  - rewrite Nat.add_0_r. reflexivity.
  - rewrite Ht, IH. f_equal. lia.
Qed.

(** When every threshold is above [dec_t] the function returns [None];
    it does not raise. *)
Theorem decision_threshold_no_match (thresh : list Q) :
  Forall (fun t => dec_t < t) thresh ->
  decision_threshold fpr tpr thresh dec_t = Ok None.
Proof.
  intro H. unfold decision_threshold.
  rewrite <- (app_nil_r thresh), scan_skip; [reflexivity |].
  eapply Forall_impl; [| exact H].
  intros t Ht. apply Qle_bool_false_iff, Ht.
Qed.

(** When some threshold is at or below [dec_t], the result is the first
    such point; on thresholds in decreasing order it is the one with the
    largest threshold not above [dec_t]. *)
Theorem decision_threshold_first_match (thresh : list Q) :
  length fpr = length thresh -> length tpr = length thresh ->
  Exists (fun t => t <= dec_t) thresh ->
  exists i,
    (i < length thresh)%nat /\
    decision_threshold fpr tpr thresh dec_t =
      Ok (Some (nth i fpr 0, nth i tpr 0, nth i thresh 0)) /\
    nth i thresh 0 <= dec_t /\
    (forall j, (j < i)%nat -> dec_t < nth j thresh 0) /\
    ((forall a b, (a <= b < length thresh)%nat ->
        nth b thresh 0 <= nth a thresh 0) ->
     forall j, (j < length thresh)%nat -> nth j thresh 0 <= dec_t ->
       nth j thresh 0 <= nth i thresh 0).
Proof.
  intros Hf Ht Hex.
  assert (Hex' : Exists (fun t => Qle_bool t dec_t = true) thresh).
  { eapply Exists_impl; [| exact Hex]. intros t H. apply Qle_bool_iff, H. }
  destruct (first_true _ _ Hex') as (pre & x & post & Hth & Hpre & Hx).
  subst thresh.
  destruct (nth_prefix pre x post 0) as [Hn Hlt].
  assert (Hi : (length pre < length (pre ++ x :: post))%nat).
  { rewrite length_app. simpl. lia. }
  assert (Hbefore : forall j, (j < length pre)%nat ->
                      dec_t < nth j (pre ++ x :: post) 0).
  { intros j Hj. rewrite (Hlt j Hj).
    apply Qle_bool_false_iff.
    apply (Forall_nth_lt (fun a => Qle_bool a dec_t = false)); assumption. }
  exists (length pre). split; [exact Hi |]. split; [| split; [| split]].
  - unfold decision_threshold. rewrite scan_skip by exact Hpre.
    simpl. rewrite Hx.
    rewrite (getitem_nth fpr _ 0) by lia. rewrite (getitem_nth tpr _ 0) by lia.
    simpl. rewrite Hn. reflexivity.
  - rewrite Hn. apply Qle_bool_iff, Hx.
  - exact Hbefore.
  - intros Hdec j Hj Hle.
    destruct (Nat.lt_ge_cases j (length pre)) as [Hlt' | Hge].
    + specialize (Hbefore j Hlt'). lra.
    + apply Hdec. lia.
Qed.

End ThresholdFacts.

Lemma decision_threshold_no_match_witness :
  Threshold.decision_threshold [0; 1] [0; 1] [2; 1] (1 # 2) = Ok None.
Proof.
  apply (decision_threshold_no_match [0; 1] [0; 1] (1 # 2) [2; 1]).
  repeat constructor.
Defined.

Lemma decision_threshold_first_match_witness :
  exists i,
    (i < 3)%nat /\
    Threshold.decision_threshold Examples.diag_fpr Examples.diag_tpr
      Examples.diag_thresh 1 =
      Ok (Some (nth i Examples.diag_fpr 0, nth i Examples.diag_tpr 0,
                nth i Examples.diag_thresh 0)) /\
    nth i Examples.diag_thresh 0 <= 1.
Proof.
  destruct (decision_threshold_first_match Examples.diag_fpr Examples.diag_tpr 1
              Examples.diag_thresh eq_refl eq_refl) as (i & Hi & E & Hle & _).
  - apply Exists_cons_tl, Exists_cons_hd. unfold Qle; simpl; lia.
  - exists i. repeat split; assumption.
Defined.

(** ** [neyman_pearson]: a reachable constraint *)

Lemma getitemZ_minus_one {A : Type} (l : list A) (d : A) :
  (0 < length l)%nat ->
  getitemZ l (Z.of_nat 0 - 1) = Ok (nth (length l - 1) l d).
Proof.
  intro H. unfold getitemZ. simpl (0 <=? _)%Z. cbv iota.
  assert (E : (- Z.of_nat (length l) <=? Z.of_nat 0 - 1)%Z = true)
    by (apply Z.leb_le; lia).
  rewrite E.
  replace (Z.to_nat (Z.of_nat (length l) + (Z.of_nat 0 - 1)))
    with (length l - 1)%nat by lia.
  apply getitem_nth. lia.
Qed.


Section NeymanPearsonMatch.
Import NeymanPearson.

Variables (fpr tpr thresh : list Q) (min_rate : Q).
Hypothesis len_fpr : length fpr = length tpr.
Hypothesis len_thresh : length thresh = length tpr.

Lemma scan_Se_skip (pre rest : list Q) (i : nat) :
  Forall (fun t => Qle_bool min_rate t = false) pre ->
  scan_Se fpr thresh min_rate i (pre ++ rest) =
  scan_Se fpr thresh min_rate (i + length pre) rest.
Proof.
  intro H. revert i. induction H as [| t pre Ht _ IH]; intro i; simpl.
  - rewrite Nat.add_0_r. reflexivity.
  - rewrite Ht, IH. f_equal. lia.
Qed.

Lemma scan_Sp_skip (pre rest : list Q) (i : nat) :
  Forall (fun t => Qlt_bool t min_rate = false) pre ->
  scan_Sp fpr tpr thresh min_rate i (pre ++ rest) =
  scan_Sp fpr tpr thresh min_rate (i + length pre) rest.
Proof.
  intro H. revert i. induction H as [| t pre Ht _ IH]; intro i; simpl.
  - rewrite Nat.add_0_r. reflexivity.
  - rewrite Ht, IH. f_equal. lia.
Qed.

Lemma nth_tnr (j : nat) :
  (j < length fpr)%nat ->
  nth j (map (fun x => 1 - x) fpr) 0 = 1 - nth j fpr 0.
Proof.
  intro Hj.
  rewrite (nth_indep _ 0 (1 - 0)) by (rewrite length_map; exact Hj).
  apply (map_nth (fun x => 1 - x)).
Qed.

(** A sensitivity constraint that some point meets is answered with the
    first point that meets it. *)
Theorem neyman_pearson_Se_first :
  Exists (fun t => min_rate <= t) tpr ->
  exists i,
    (i < length tpr)%nat /\
    neyman_pearson fpr tpr thresh min_rate true =
      Ok (Some (nth i fpr 0, nth i tpr 0, nth i thresh 0)) /\
    min_rate <= nth i tpr 0 /\
    forall j, (j < i)%nat -> nth j tpr 0 < min_rate.
Proof.
  intro Hex.
  assert (Hex' : Exists (fun t => Qle_bool min_rate t = true) tpr).
  { eapply Exists_impl; [| exact Hex]. intros t H. apply Qle_bool_iff, H. }
  destruct (first_true _ _ Hex') as (pre & x & post & Htpr & Hpre & Hx).
  destruct (nth_prefix pre x post 0) as [Hn Hlt].
  assert (Hi : (length pre < length tpr)%nat).
  { rewrite Htpr, length_app. simpl. lia. }
  exists (length pre). split; [exact Hi |]. split; [| split].
  - unfold neyman_pearson. rewrite Htpr at 1. rewrite scan_Se_skip by exact Hpre.
    simpl. rewrite Hx.
    rewrite (getitem_nth fpr _ 0) by lia. rewrite (getitem_nth thresh _ 0) by lia.
    simpl. rewrite Htpr, Hn. reflexivity.
  - rewrite Htpr, Hn. apply Qle_bool_iff, Hx.
  - intros j Hj. rewrite Htpr, (Hlt j Hj).
    apply Qle_bool_false_iff.
    apply (Forall_nth_lt (fun a => Qle_bool min_rate a = false)); assumption.
Qed.


(** When already the first point violates a specificity constraint, the
    index [i-1 = -1] wraps around and the answer is the last point of the
    curve. *)
Theorem neyman_pearson_Sp_wraps_to_last_point :
  (0 < length tpr)%nat ->
  1 - nth 0 fpr 0 < min_rate ->
  neyman_pearson fpr tpr thresh min_rate false =
    Ok (Some (nth (length tpr - 1) fpr 0, nth (length tpr - 1) tpr 0,
              nth (length tpr - 1) thresh 0)).
Proof.
  intros Hn H0. unfold neyman_pearson.
  assert (Hmap : map (fun x => 1 - x) fpr =
                 (1 - nth 0 fpr 0) :: map (fun x => 1 - x) (tl fpr)).
  { destruct fpr; [simpl in len_fpr; lia | reflexivity]. }
  rewrite Hmap. cbn [scan_Sp].
  apply Qlt_bool_iff in H0. rewrite H0.
  rewrite !(getitemZ_minus_one _ 0) by lia.
  rewrite len_fpr, len_thresh. reflexivity.
Qed.

End NeymanPearsonMatch.

Lemma neyman_pearson_Se_first_witness :
  exists i,
    (i < length Examples.roc_tpr)%nat /\
    NeymanPearson.neyman_pearson Examples.roc_fpr Examples.roc_tpr
      Examples.roc_thresh (9 # 10) true =
      Ok (Some (nth i Examples.roc_fpr 0, nth i Examples.roc_tpr 0,
                nth i Examples.roc_thresh 0)) /\
    (9 # 10) <= nth i Examples.roc_tpr 0 /\
    forall j, (j < i)%nat -> nth j Examples.roc_tpr 0 < 9 # 10.
Proof.
  apply (neyman_pearson_Se_first Examples.roc_fpr Examples.roc_tpr
           Examples.roc_thresh (9 # 10) eq_refl eq_refl).
  do 2 apply Exists_cons_tl. apply Exists_cons_hd. unfold Qle; simpl; lia.
Defined.


Lemma neyman_pearson_Sp_wraps_to_last_point_witness :
  NeymanPearson.neyman_pearson Examples.roc_fpr Examples.roc_tpr
    Examples.roc_thresh 2 false = Ok (Some (1, 1, 0)).
Proof.
  apply (neyman_pearson_Sp_wraps_to_last_point Examples.roc_fpr Examples.roc_tpr
           Examples.roc_thresh 2 eq_refl eq_refl).
  - simpl; lia.
  - reflexivity.
Defined.

(** ** [bayes_error] *)

Section BayesFacts.
Import Bayes.

Variables (fpr tpr thresh : list Q) (Nn Np : Q).
Hypothesis len_fpr : length fpr = length tpr.
Hypothesis len_thresh : length thresh = length tpr.

Local Abbreviation tp := (map (fun t => t * Np) tpr).
Local Abbreviation tn := (map (fun f => (1 - f) * Nn) fpr).
Local Abbreviation correct := (Bayes.correct fpr tpr Nn Np).
Local Abbreviation seen := (Bayes.seen fpr tpr thresh Nn Np).

Lemma nth_tp (i : nat) : (i < length tpr)%nat -> nth i tp 0 = nth i tpr 0 * Np.
Proof.
  intro Hi.
  rewrite (nth_indep _ 0 (0 * Np)) by (rewrite length_map; exact Hi).
  apply (map_nth (fun t => t * Np)).
Qed.

Lemma nth_tn (i : nat) :
  (i < length tpr)%nat -> nth i tn 0 = (1 - nth i fpr 0) * Nn.
Proof.
  intro Hi.
  rewrite (nth_indep _ 0 ((1 - 0) * Nn)) by (rewrite length_map; lia).
  apply (map_nth (fun f => (1 - f) * Nn)).
Qed.

Lemma bayes_step_seen (i : nat) (st : locals) :
  (i < length tpr)%nat -> seen i st ->
  exists st', step tp tn thresh st i = Ok st' /\ seen (S i) st'.
Proof.
  intros Hi Hseen. unfold step.
  rewrite (getitem_nth tp i 0) by (rewrite length_map; exact Hi).
  rewrite (getitem_nth tn i 0) by (rewrite length_map; lia).
  rewrite (getitem_nth thresh i 0) by lia.
  rewrite (nth_tp i Hi), (nth_tn i Hi). cbn [bind].
  change (nth i tpr 0 * Np + (1 - nth i fpr 0) * Nn) with (correct i).
  destruct (Qlt_bool (BAcc st) (correct i)) eqn:E.
  - apply Qlt_bool_iff in E.
    eexists; split; [reflexivity |]. right. exists i.
    cbn [from_array Btpr Btnr Bthresh BAcc].
    split; [lia |]. split; [reflexivity |]. split; [reflexivity |].
    split; [reflexivity |]. split; [reflexivity |].
    split; [unfold Bayes.correct; ring |].
    destruct Hseen as [[-> Hall] | (k & Hk & _ & _ & _ & _ & Hv & Hpos & Hmax & _)];
      cbn [BAcc start] in E.
    + split; [lra |]. split.
      * intros j Hj. destruct (Nat.eq_dec j i) as [-> | Hne]; [lra |].
        assert (correct j <= 0) by (apply Hall; lia). lra.
      * intros j Hj. assert (correct j <= 0) by (apply Hall; lia). lra.
    + split; [lra |]. split.
      * intros j Hj. destruct (Nat.eq_dec j i) as [-> | Hne]; [lra |].
        assert (correct j <= correct k) by (apply Hmax; lia). lra.
      * intros j Hj. assert (correct j <= correct k) by (apply Hmax; lia). lra.
  - apply Qlt_bool_false_iff in E.
    exists st; split; [reflexivity |].
    destruct Hseen as [[-> Hall] | (k & Hk & Hfa & Ht & Hn & Hth & Hv & Hpos & Hmax & Hfirst)].
    + left. split; [reflexivity |]. intros j Hj.
      destruct (Nat.eq_dec j i) as [-> | Hne]; [exact E | apply Hall; lia].
    + right. exists k.
      split; [lia |]. split; [exact Hfa |]. split; [exact Ht |].
      split; [exact Hn |]. split; [exact Hth |]. split; [exact Hv |].
      split; [exact Hpos |]. split; [| exact Hfirst].
      intros j Hj. destruct (Nat.eq_dec j i) as [-> | Hne]; [lra | apply Hmax; lia].
Qed.

Lemma bayes_loop_seen (m s : nat) (st : locals) :
  (s + m = length tpr)%nat -> seen s st ->
  exists st', loop tp tn thresh (seq s m) st = Ok st' /\ seen (length tpr) st'.
Proof.
  revert s st. induction m as [| m IH]; intros s st Hlen Hseen; simpl.
  - exists st. split; [reflexivity |]. replace (length tpr) with s by lia. exact Hseen.
  - destruct (bayes_step_seen s st) as (st1 & E1 & H1); [lia | exact Hseen |].
    rewrite E1. simpl. apply IH; [lia | exact H1].
Qed.

Lemma bayes_loop_total :
  exists st, loop tp tn thresh (seq 0 (length tp)) start = Ok st /\
             seen (length tpr) st.
Proof.
  rewrite length_map. apply bayes_loop_seen; [reflexivity |].
  left. split; [reflexivity | intros j Hj; lia].
Qed.

End BayesFacts.

Lemma Qdiv_le_mono (a b n : Q) : 0 < n -> a <= b -> a / n <= b / n.
Proof.
  intros Hn Hab. unfold Qdiv. apply Qmult_le_compat_r; [exact Hab |].
  apply Qlt_le_weak, Qinv_lt_0_compat, Hn.
Qed.

Lemma Qdiv_lt_mono (a b n : Q) : 0 < n -> a < b -> a / n < b / n.
Proof.
  intros Hn Hab. unfold Qdiv. apply Qmult_lt_compat_r; [| exact Hab].
  apply Qinv_lt_0_compat, Hn.
Qed.

(** With positive class counts and a point of positive count, the scan
    ends on the first point of the largest count and the three divisions
    are ordinary ones. *)
Lemma bayes_error_found (fpr tpr thresh : list Q) (Nn Np : Q) :
  length fpr = length tpr -> length thresh = length tpr ->
  0 < Nn -> 0 < Np ->
  (exists i, (i < length tpr)%nat /\ 0 < Bayes.correct fpr tpr Nn Np i) ->
  exists k acc,
    (k < length tpr)%nat /\
    acc == Bayes.correct fpr tpr Nn Np k /\
    Bayes.bayes_error fpr tpr thresh Nn Np =
      Ok (Fin (1 - acc / (Nn + Np)),
          Fin (1 - ((1 - nth k fpr 0) * Nn) / Nn),
          Fin ((nth k tpr 0 * Np) / Np),
          nth k thresh 0) /\
    (forall j, (j < length tpr)%nat ->
       Bayes.correct fpr tpr Nn Np j <= Bayes.correct fpr tpr Nn Np k) /\
    (forall j, (j < k)%nat ->
       Bayes.correct fpr tpr Nn Np j < Bayes.correct fpr tpr Nn Np k).
Proof.
  intros Hlf Hlt HNn HNp (i & Hi & Hpos).
  destruct (bayes_loop_total fpr tpr thresh Nn Np Hlf Hlt)
    as (st & E & [[-> Hall] | (k & Hk & Hfa & Ht & Hn & Hth & Hv & _ & Hmax & Hfirst)]).
  - specialize (Hall i Hi). lra.
  - exists k, (Bayes.BAcc st). split; [exact Hk |]. split; [exact Hv |].
    split; [| split; assumption].
    unfold Bayes.bayes_error. rewrite E. cbn [bind].
    rewrite Hfa, Ht, Hn, Hth. unfold Bayes.divide.
    rewrite !xdiv_fin by lra. reflexivity.
Qed.


(** On a curve of rates in [0,1] that has a point with [fpr = 0] and a
    point with [tpr = 1], the Bayes error lies between 0 and 1/2. *)
Theorem bayes_error_at_most_half (fpr tpr thresh : list Q) (Nn Np : Q) :
  length fpr = length tpr -> length thresh = length tpr ->
  0 < Nn -> 0 < Np ->
  (forall i, (i < length tpr)%nat ->
     0 <= nth i fpr 0 <= 1 /\ 0 <= nth i tpr 0 <= 1) ->
  (exists i, (i < length tpr)%nat /\ nth i fpr 0 == 0) ->
  (exists i, (i < length tpr)%nat /\ nth i tpr 0 == 1) ->
  exists e f t th,
    Bayes.bayes_error fpr tpr thresh Nn Np = Ok (Fin e, f, t, th) /\
    0 <= e <= 1 # 2.
Proof.
  intros Hlf Hlt HNn HNp Hrates (i0 & Hi0 & Hf0) (i1 & Hi1 & Ht1).
  assert (H0 : Nn <= Bayes.correct fpr tpr Nn Np i0).
  { unfold Bayes.correct. destruct (Hrates i0 Hi0) as [_ [Ht _]].
    assert (0 <= nth i0 tpr 0 * Np) by (apply Qmult_le_0_compat; lra).
    rewrite Hf0. lra. }
  assert (H1 : Np <= Bayes.correct fpr tpr Nn Np i1).
  { unfold Bayes.correct. destruct (Hrates i1 Hi1) as [[_ Hf] _].
    assert (0 <= (1 - nth i1 fpr 0) * Nn) by (apply Qmult_le_0_compat; lra).
    rewrite Ht1. lra. }
  destruct (bayes_error_found fpr tpr thresh Nn Np Hlf Hlt HNn HNp)
    as (k & acc & Hk & Hacc & E & Hmax & _).
  { exists i0. split; [exact Hi0 | lra]. }
  do 4 eexists. split; [exact E |].
  assert (HN : 0 < Nn + Np) by lra.
  pose proof (Hmax i0 Hi0) as M0. pose proof (Hmax i1 Hi1) as M1.
  assert (Hup : acc <= Nn + Np).
  { rewrite Hacc. unfold Bayes.correct.
    destruct (Hrates k Hk) as [[Hf _] [_ Ht]].
    assert (0 <= (1 - nth k tpr 0) * Np) by (apply Qmult_le_0_compat; lra).
    assert (0 <= nth k fpr 0 * Nn) by (apply Qmult_le_0_compat; lra).
    lra. }
  assert (Hlo : (1 # 2) * (Nn + Np) <= acc) by (rewrite Hacc; lra).
  pose proof (Qdiv_le_mono _ _ _ HN Hup) as D1.
  pose proof (Qdiv_le_mono _ _ _ HN Hlo) as D2.
  assert (E1 : (Nn + Np) / (Nn + Np) == 1) by (field; lra).
  assert (E2 : (1 # 2) * (Nn + Np) / (Nn + Np) == 1 # 2) by (field; lra).
  lra.
Qed.

(** When no point has a positive count of correct decisions (the empty
    curve is one case), [bayes_error] still returns: the error rate is 1
    at [fpr = 1], [tpr = 0] with threshold [0.0]. *)
Theorem bayes_error_nothing_found (fpr tpr thresh : list Q) (Nn Np : Q) :
  length fpr = length tpr -> length thresh = length tpr ->
  0 < Nn -> 0 < Np ->
  (forall i, (i < length tpr)%nat -> Bayes.correct fpr tpr Nn Np i <= 0) ->
  exists e f t,
    Bayes.bayes_error fpr tpr thresh Nn Np = Ok (Fin e, Fin f, Fin t, 0) /\
    e == 1 /\ f == 1 /\ t == 0.
Proof.
  intros Hlf Hlt HNn HNp Hall.
  destruct (bayes_loop_total fpr tpr thresh Nn Np Hlf Hlt)
    as (st & E & [[-> _] | (k & Hk & _ & _ & _ & _ & _ & Hpos & _)]).
  - unfold Bayes.bayes_error. rewrite E. cbn [bind].
    unfold Bayes.divide, Bayes.start.
    cbn [Bayes.from_array Bayes.BAcc Bayes.Btpr Bayes.Btnr Bayes.Bthresh].
    assert (E1 : Qeq_bool (Nn + Np) 0 = false) by (apply Qeq_bool_false_iff; lra).
    assert (E2 : Qeq_bool Np 0 = false) by (apply Qeq_bool_false_iff; lra).
    assert (E3 : Qeq_bool Nn 0 = false) by (apply Qeq_bool_false_iff; lra).
    rewrite E1, E2, E3. cbn [bind xsub].
    do 3 eexists. split; [reflexivity |].
    repeat split; field; lra.
  - specialize (Hall k Hk). lra.
Qed.


Lemma bayes_error_at_most_half_witness :
  exists e f t th,
    Bayes.bayes_error Examples.roc_fpr Examples.roc_tpr Examples.roc_thresh 3 1 =
      Ok (Fin e, f, t, th) /\
    0 <= e <= 1 # 2.
Proof.
  apply (bayes_error_at_most_half Examples.roc_fpr Examples.roc_tpr
           Examples.roc_thresh 3 1 eq_refl eq_refl); try reflexivity.
  - intros i Hi.
    do 5 (destruct i as [| i]; [repeat split; unfold Qle; simpl; lia |]).
    simpl in Hi. lia.
  - exists 0%nat. split; [simpl; lia | reflexivity].
  - exists 2%nat. split; [simpl; lia | reflexivity].
Defined.

Lemma bayes_error_nothing_found_witness :
  exists e f t,
    Bayes.bayes_error [] [] [] 3 1 = Ok (Fin e, Fin f, Fin t, 0) /\
    e == 1 /\ f == 1 /\ t == 0.
Proof.
  apply (bayes_error_nothing_found [] [] [] 3 1 eq_refl eq_refl);
    try reflexivity.
  intros i Hi. simpl in Hi. lia.
Defined.

(** ** [chi_sqr_val] *)

Section ChiSquareFacts.
Import ChiSquare.

Lemma eps_pos : 0 < eps.
Proof. reflexivity. Qed.

Lemma expected_fin (r N Nn Np : Q) :
  0 < Nn + Np -> expected r N Nn Np = Fin (expected_q r N Nn Np).
Proof.
  intro H. unfold expected. rewrite xdiv_fin by lra. reflexivity.
Qed.

Lemma expected_q_pos (r N Nn Np : Q) :
  0 < Nn + Np -> 0 <= r -> 0 <= N -> 0 < expected_q r N Nn Np.
Proof.
  intros H Hr HN. unfold expected_q.
  assert (0 <= r * N / (Nn + Np)).
  { apply Qdiv_nonneg; [apply Qmult_le_0_compat; assumption | lra]. }
  pose proof eps_pos. lra.
Qed.

Lemma term_fin (o e : Q) : 0 < e -> term o (Fin e) = Fin (term_q o e).
Proof.
  intro H. unfold term. cbn [xsub xmul xquot]. apply xdiv_fin. lra.
Qed.

Lemma term_q_nonneg (o e : Q) : 0 < e -> 0 <= term_q o e.
Proof.
  intro H. unfold term_q. apply Qdiv_nonneg; [apply square_nonneg | lra].
Qed.

Lemma term_q_compat (o o' e e' : Q) :
  o == o' -> e == e' -> term_q o e == term_q o' e'.
Proof. intros Ho He. unfold term_q. rewrite Ho, He. reflexivity. Qed.

(** When the expected count exceeds the observed one by the offset
    only, the term is at most the offset. *)
Lemma term_q_offset (o e : Q) : 0 <= o -> e == o + eps -> term_q o e <= eps.
Proof.
  intros Ho He. pose proof eps_pos as Hp.
  rewrite (term_q_compat o o e (o + eps)) by (reflexivity || exact He).
  unfold term_q. apply Qle_shift_div_r; [lra |].
  assert (0 <= eps * o) by (apply Qmult_le_0_compat; lra).
  lra.
Qed.

Variables (tpr fpr Nn Np : Q).
Hypothesis tpr_range : 0 <= tpr <= 1.
Hypothesis fpr_range : 0 <= fpr <= 1.
Hypothesis Nn_pos : 0 < Nn.
Hypothesis Np_pos : 0 < Np.

Local Abbreviation fn := ((1 - tpr) * Np).
Local Abbreviation tn := ((1 - fpr) * Nn).
Local Abbreviation tp := (tpr * Np).
Local Abbreviation fp := (fpr * Nn).

Lemma counts_nonneg : 0 <= fn /\ 0 <= tn /\ 0 <= tp /\ 0 <= fp.
Proof.
  repeat split; apply Qmult_le_0_compat; lra.
Qed.

(** On rates in [0,1] and positive counts no special value arises. *)
Lemma chi_sqr_val_fin :
  chi_sqr_val tpr fpr Nn Np =
  Fin (term_q tn (expected_q (tn + fn) Nn Nn Np) +
       term_q tp (expected_q (fp + tp) Np Nn Np) +
       term_q fn (expected_q (tn + fn) Np Nn Np) +
       term_q fp (expected_q (fp + tp) Nn Nn Np)).
Proof.
  destruct counts_nonneg as (H1 & H2 & H3 & H4).
  assert (HN : 0 < Nn + Np) by lra.
  unfold chi_sqr_val. cbv zeta.
  rewrite !expected_fin by exact HN.
  rewrite !term_fin by (apply expected_q_pos; lra).
  reflexivity.
Qed.

End ChiSquareFacts.

(** The four terms, each of them non-negative. *)
Lemma chi_sqr_val_terms (tpr fpr Nn Np : Q) :
  0 <= tpr <= 1 -> 0 <= fpr <= 1 -> 0 < Nn -> 0 < Np ->
  let fn := (1 - tpr) * Np in
  let tn := (1 - fpr) * Nn in
  let tp := tpr * Np in
  let fp := fpr * Nn in
  let a := ChiSquare.term_q tn (ChiSquare.expected_q (tn + fn) Nn Nn Np) in
  let b := ChiSquare.term_q tp (ChiSquare.expected_q (fp + tp) Np Nn Np) in
  let c := ChiSquare.term_q fn (ChiSquare.expected_q (tn + fn) Np Nn Np) in
  let d := ChiSquare.term_q fp (ChiSquare.expected_q (fp + tp) Nn Nn Np) in
  ChiSquare.chi_sqr_val tpr fpr Nn Np = Fin (a + b + c + d) /\
  0 <= a /\ 0 <= b /\ 0 <= c /\ 0 <= d.
Proof.
  intros Ht Hf HNn HNp. cbv zeta.
  split; [apply chi_sqr_val_fin; assumption |].
  destruct (counts_nonneg tpr fpr Nn Np Ht Hf HNn HNp) as (H1 & H2 & H3 & H4).
  assert (HN : 0 < Nn + Np) by lra.
  repeat split; apply term_q_nonneg, expected_q_pos; lra.
Qed.

(** For rates in [0,1] and positive class counts the chi-square value is
    a number, and it is not negative. *)
Theorem chi_sqr_val_nonneg (tpr fpr Nn Np : Q) :
  0 <= tpr <= 1 -> 0 <= fpr <= 1 -> 0 < Nn -> 0 < Np ->
  exists c, ChiSquare.chi_sqr_val tpr fpr Nn Np = Fin c /\ 0 <= c.
Proof.
  intros Ht Hf HNn HNp.
  destruct (chi_sqr_val_terms tpr fpr Nn Np Ht Hf HNn HNp)
    as (E & Ha & Hb & Hc & Hd).
  eexists. split; [exact E | lra].
Qed.

(** On the chance diagonal ([tpr = fpr]) every expected count differs
    from the observed one by the offset only, and the chi-square value
    is at most four times the offset. *)
Theorem chi_sqr_val_diagonal (r Nn Np : Q) :
  0 <= r <= 1 -> 0 < Nn -> 0 < Np ->
  exists c, ChiSquare.chi_sqr_val r r Nn Np = Fin c /\
            0 <= c <= 4 * ChiSquare.eps.
Proof.
  intros Hr HNn HNp.
  destruct (chi_sqr_val_terms r r Nn Np Hr Hr HNn HNp)
    as (E & Ha & Hb & Hc & Hd).
  eexists. split; [exact E |]. split; [lra |].
  destruct (counts_nonneg r r Nn Np Hr Hr HNn HNp) as (H1 & H2 & H3 & H4).
  assert (HN : ~ Nn + Np == 0) by lra.
  pose proof (term_q_offset ((1 - r) * Nn)
    (ChiSquare.expected_q ((1 - r) * Nn + (1 - r) * Np) Nn Nn Np) H2) as T1.
  pose proof (term_q_offset (r * Np)
    (ChiSquare.expected_q (r * Nn + r * Np) Np Nn Np) H3) as T2.
  pose proof (term_q_offset ((1 - r) * Np)
    (ChiSquare.expected_q ((1 - r) * Nn + (1 - r) * Np) Np Nn Np) H1) as T3.
  pose proof (term_q_offset (r * Nn)
    (ChiSquare.expected_q (r * Nn + r * Np) Nn Nn Np) H4) as T4.
  assert (A1 := T1 ltac:(unfold ChiSquare.expected_q; field; exact HN)).
  assert (A2 := T2 ltac:(unfold ChiSquare.expected_q; field; exact HN)).
  assert (A3 := T3 ltac:(unfold ChiSquare.expected_q; field; exact HN)).
  assert (A4 := T4 ltac:(unfold ChiSquare.expected_q; field; exact HN)).
  lra.
Qed.


Lemma chi_sqr_val_nonneg_witness :
  exists c, ChiSquare.chi_sqr_val 1 0 100 100 = Fin c /\ 0 <= c.
Proof.
  apply (chi_sqr_val_nonneg 1 0 100 100);
    try reflexivity; split; unfold Qle; simpl; lia.
Defined.

Lemma chi_sqr_val_diagonal_witness :
  exists c, ChiSquare.chi_sqr_val (1 # 2) (1 # 2) 100 100 = Fin c /\
            0 <= c <= 4 * ChiSquare.eps.
Proof.
  apply (chi_sqr_val_diagonal (1 # 2) 100 100);
    try reflexivity; split; unfold Qle; simpl; lia.
Defined.


(** ** [sew_auc] *)

Section VarianceFacts.
Import Variance.

Variables (AUC nn np : Q).
Hypothesis AUC_range : 0 <= AUC <= 1.

Lemma Q1_excess : 0 <= AUC / (2 - AUC) - AUC * AUC.
Proof.
  assert (H : AUC * AUC <= AUC / (2 - AUC)); [| lra].
  apply Qle_shift_div_l; [lra |].
  assert (0 <= AUC * ((1 - AUC) * (1 - AUC)))
    by (apply Qmult_le_0_compat; [lra | apply square_nonneg]).
  lra.
Qed.

Lemma Q2_excess : 0 <= 2 * (AUC * AUC) / (1 + AUC) - AUC * AUC.
Proof.
  assert (H : AUC * AUC <= 2 * (AUC * AUC) / (1 + AUC)); [| lra].
  apply Qle_shift_div_l; [lra |].
  assert (0 <= (AUC * AUC) * (1 - AUC))
    by (apply Qmult_le_0_compat; [apply square_nonneg | lra]).
  lra.
Qed.

(** For an AUC in [0,1] and a non-zero product of counts no special
    value arises. *)
Lemma sew_auc_fin :
  ~ nn * np == 0 ->
  sew_auc AUC nn np =
  Fin ((AUC * (1 - AUC) +
        (np - 1) * (AUC / (2 - AUC) - AUC * AUC) +
        (nn - 1) * (2 * (AUC * AUC) / (1 + AUC) - AUC * AUC)) / (nn * np)).
Proof.
  intro H. unfold sew_auc. cbv zeta.
  rewrite (xdiv_fin AUC (2 - AUC)) by lra.
  rewrite (xdiv_fin (2 * (AUC * AUC)) (1 + AUC)) by lra.
  cbn [xsub xmul xadd xquot]. apply xdiv_fin, H.
Qed.

End VarianceFacts.


(** At the two ends, [AUC = 1] and [AUC = 0], the value is zero whatever
    the (non-zero) sample counts. *)
Theorem sew_auc_zero_at_ends (nn np : Q) :
  ~ nn * np == 0 ->
  exists s1 s0,
    Variance.sew_auc 1 nn np = Fin s1 /\ s1 == 0 /\
    Variance.sew_auc 0 nn np = Fin s0 /\ s0 == 0.
Proof.
  intro H.
  assert (R1 : 0 <= 1 <= 1) by lra. assert (R0 : 0 <= 0 <= 1) by lra.
  assert (Hn : ~ nn == 0) by (intro E; apply H; rewrite E; ring).
  assert (Hp : ~ np == 0) by (intro E; apply H; rewrite E; ring).
  do 2 eexists.
  split; [apply (sew_auc_fin 1 nn np R1 H) |].
  split; [field; first [assumption | split; assumption] |].
  split; [apply (sew_auc_fin 0 nn np R0 H) |].
  field. first [assumption | split; assumption].
Qed.


Lemma sew_auc_zero_at_ends_witness :
  exists s1 s0,
    Variance.sew_auc 1 20 30 = Fin s1 /\ s1 == 0 /\
    Variance.sew_auc 0 20 30 = Fin s0 /\ s0 == 0.
Proof.
  apply (sew_auc_zero_at_ends 20 30). intro H. discriminate H.
Defined.

(** ** [pav_rocch]: what the result keeps of the targets *)

Section PAVKeeps.
Import PAV.

Lemma excess_qsum (c : Q) (ys : list Q) (S : Q) :
  excess c S ys == S + qsum ys - qlen ys * c.
Proof.
  revert S. induction ys as [| y ys IH]; intro S.
  - unfold qlen. simpl. ring.
  - simpl excess. rewrite IH, qlen_cons. simpl qsum. ring.
Qed.

Lemma block_sum (b : block) :
  iso_block b -> qsum (repeat (snd b) (size b)) == qsum (fst b).
Proof.
  intros [_ He]. rewrite excess_qsum in He. rewrite qsum_repeat.
  change (inject_Z (Z.of_nat (size b))) with (qlen (fst b)). lra.
Qed.

Lemma blocks_sum (bs : list block) :
  Forall iso_block bs -> qsum (conc_v bs) == qsum (flat_map fst bs).
Proof.
  induction 1 as [| b bs Hb _ IH]; [reflexivity |].
  rewrite conc_v_cons. cbn [flat_map].
  rewrite !qsum_app, IH, (block_sum b Hb). reflexivity.
Qed.

Lemma qsum_bounds (lo hi : Q) (ys : list Q) :
  Forall (fun a => lo <= a <= hi) ys ->
  qlen ys * lo <= qsum ys <= qlen ys * hi.
Proof.
  induction 1 as [| y ys Hy _ IH].
  - change (qlen []) with 0. cbn [qsum]. lra.
  - rewrite qlen_cons. cbn [qsum]. lra.
Qed.

Lemma block_range (lo hi : Q) (b : block) :
  iso_block b -> nonempty b -> Forall (fun a => lo <= a <= hi) (fst b) ->
  lo <= snd b <= hi.
Proof.
  intros [_ He] Hne Hys. rewrite excess_qsum in He.
  pose proof (qsum_bounds lo hi (fst b) Hys) as Hb.
  assert (Hn : 0 < qlen (fst b)).
  { unfold qlen. change 0 with (inject_Z 0). rewrite <- Zlt_Qlt.
    unfold nonempty, size in Hne. lia. }
  split.
  - assert (0 <= snd b - lo); [| lra].
    apply (scaled_nonneg (qlen (fst b))); lra.
  - assert (0 <= hi - snd b); [| lra].
    apply (scaled_nonneg (qlen (fst b))); lra.
Qed.

Lemma blocks_range (lo hi : Q) (bs : list block) :
  Forall iso_block bs -> Forall nonempty bs ->
  Forall (fun a => lo <= a <= hi) (flat_map fst bs) ->
  Forall (fun a => lo <= a <= hi) (conc_v bs).
Proof.
  induction 1 as [| b bs Hb _ IH]; intros Hne Hys; [constructor |].
  inversion Hne as [| ? ? Hnb Hne']; subst.
  cbn [flat_map] in Hys. apply Forall_app in Hys. destruct Hys as [H1 H2].
  rewrite conc_v_cons. apply Forall_app. split; [| apply IH; assumption].
  apply Forall_forall. intros x Hx. apply repeat_spec in Hx. subst x.
  apply (block_range lo hi b); assumption.
Qed.

(** On a float array the loop ends in a state that pooled blocks
    describe. *)
Lemma pav_while_pooled (y : list Q) :
  exists k st bs,
    (k <= length y - 1)%nat /\
    (forall fuel, (k < fuel)%nat -> pav_while fuel float64 (init y) = Ok (Some st)) /\
    v st = conc_v bs /\ flat_map fst bs = y /\
    Forall iso_block bs /\ Forall nonempty bs /\
    AUC.nondecreasing (v st).
Proof.
  destruct (pav_while_terminates float64 (length (singletons y)) (singletons y)
              (init y) eq_refl (represents_init y))
    as (k & st & bs0 & Hpools & _ & _ & _ & Hmono & Hfuel).
  destruct (iso_singletons y) as [Hiso0 Hy0].
  destruct (pools_iso k _ _ Hpools _ (represents_init y) Hiso0)
    as (bs & Hrep & Hiso & Hy).
  destruct (pools_blocks float64 k _ _ Hpools _ (represents_init y))
    as (bs' & Hrep' & Hlen' & Htot').
  rewrite Hy0 in Hy.
  exists k, st, bs.
  split.
  { rewrite total_singletons in Htot'.
    assert (Hsl : length (singletons y) = length y) by apply length_map.
    destruct bs' as [| b bs'].
    - unfold total in Htot'. simpl in Htot'. simpl in Hlen'. lia.
    - simpl in Hlen'. lia. }
  split; [exact Hfuel |].
  destruct Hrep as (Hv & _ & Hne).
  repeat split; assumption.
Qed.

Lemma sq_zero (x : Q) : x * x <= 0 -> x == 0.
Proof.
  intro H. destruct (Qlt_le_dec x 0) as [Hx | Hx].
  - assert (0 < (- x) * (- x)) by (apply Qmult_lt_0_compat; lra). lra.
  - destruct (Qlt_le_dec 0 x) as [Hp | Hp]; [| lra].
    assert (0 < x * x) by (apply Qmult_lt_0_compat; lra). lra.
Qed.

Lemma sse_zero (u w : list Q) :
  length w = length u -> sse u w <= 0 -> Forall2 Qeq u w.
Proof.
  revert w. induction u as [| a u IH]; intros w Hlen H.
  - destruct w; [constructor | discriminate].
  - destruct w as [| b w]; [discriminate |].
    simpl in H. pose proof (sse_nonneg u w). pose proof (square_nonneg (a - b)).
    constructor.
    + assert (a - b == 0) by (apply sq_zero; lra). lra.
    + apply IH; [simpl in Hlen; lia | lra].
Qed.

Lemma nondecreasing_forallb_diff (w : list Q) :
  AUC.nondecreasing w -> forallb (fun d => Qle_bool 0 d) (AUC.diff w) = true.
Proof.
  induction w as [| a [| b w] IH]; intro H; try reflexivity.
  destruct H as [Hab H]. rewrite diff_cons_cons. cbn [forallb].
  rewrite (IH H), andb_true_r. apply Qle_bool_iff. lra.
Qed.

Lemma take_error (target : list Q) (idx : list nat) :
  Exists (fun i => (length target <= i)%nat) idx ->
  take target idx = Raise IndexError.
Proof.
  induction idx as [| i idx IH]; intro H; [inversion H |].
  simpl. unfold getitem at 1.
  destruct (nth_error target i) as [x |] eqn:E; [| reflexivity].
  cbn [bind]. rewrite IH; [reflexivity |].
  inversion H as [? ? Hi | ? ? Hrest]; subst; [| exact Hrest].
  exfalso. apply nth_error_None in Hi. congruence.
Qed.

Lemma in_order_In (target : list Q) (idx : list nat) :
  Forall (fun i => (i < length target)%nat) idx ->
  forall a, In a (in_order target idx) -> In a target.
Proof.
  intros H a Ha. unfold in_order in Ha. apply in_map_iff in Ha.
  destruct Ha as (i & <- & Hi). rewrite Forall_forall in H.
  apply nth_In, H, Hi.
Qed.

End PAVKeeps.



(** Targets that are already non-decreasing in score order come back
    unchanged, after no pooling pass, whatever the element type. *)
Theorem pav_rocch_monotone_unchanged (dt : PAV.dtype) (target score : list Q)
  (fuel : nat) :
  length target = length score ->
  AUC.nondecreasing (in_order target (PAV.argsort score)) ->
  PAV.pav_rocch (S fuel) dt target score =
    Ok (Some (in_order target (PAV.argsort score),
              in_order target (PAV.argsort score))).
Proof.
  intros Hlen Hmono.
  destruct (argsort_spec score) as [Hidx Hn].
  rewrite <- Hlen in Hidx.
  destruct (take_ok target (PAV.argsort score) Hidx) as (t & Et & Ht & Hmap).
  subst t. unfold in_order in *.
  unfold PAV.pav_rocch. rewrite Et. cbn [bind PAV.pav_while].
  unfold PAV.pool. cbn [PAV.v PAV.init].
  rewrite (nondecreasing_forallb_diff _ Hmono). reflexivity.
Qed.

(** With fewer targets than scores the indexing [target[s_ind]] fails. *)
Theorem pav_rocch_short_target (dt : PAV.dtype) (target score : list Q)
  (fuel : nat) :
  (length target < length score)%nat ->
  PAV.pav_rocch fuel dt target score = Raise IndexError.
Proof.
  intro Hlen. unfold PAV.pav_rocch.
  rewrite take_error; [reflexivity |].
  destruct (argsort_sorts score) as [_ Hperm].
  apply Exists_exists. exists (length target). split; [| lia].
  apply (Permutation_in _ (Permutation_sym Hperm)).
  apply in_seq. lia.
Qed.



Lemma pav_rocch_monotone_unchanged_witness :
  PAV.pav_rocch 1 PAV.int64 [1; 0; 1] [3 # 10; 1 # 10; 2 # 10] =
    Ok (Some ([0; 1; 1], [0; 1; 1])).
Proof.
  apply (pav_rocch_monotone_unchanged PAV.int64 [1; 0; 1]
           [3 # 10; 1 # 10; 2 # 10] 0).
  - reflexivity.
  - simpl. repeat split; unfold Qle; simpl; lia.
Defined.

Lemma pav_rocch_short_target_witness :
  PAV.pav_rocch 5 PAV.float64 [1] [3 # 10; 1 # 10] = Raise IndexError.
Proof.
  apply (pav_rocch_short_target PAV.float64 [1] [3 # 10; 1 # 10] 5).
  simpl. lia.
Defined.

(** ** [reliability_curve]: what it returns *)

Section ReliabilityOutputs.
Import Reliability.

Lemma in_bin_fin (bw c : Q) (y : xQ) :
  in_bin bw c y = true -> finite y.
Proof.
  unfold in_bin. destruct y; simpl; try discriminate; intros _; exact I.
Qed.

Lemma selected_in_bin (bw c : Q) (l : list xQ) :
  Forall (fun x => in_bin bw c x = true)
    (map fst (filter snd (combine l (map (in_bin bw c) l)))).
Proof.
  induction l as [| x l IH]; simpl; [constructor |].
  destruct (in_bin bw c x) eqn:E; simpl; [constructor; assumption | exact IH].
Qed.

Lemma selected_length {A : Type} (a : list A) (mask : list bool) :
  length a = length mask ->
  length (map fst (filter snd (combine a mask))) = count_nonzero mask.
Proof.
  revert mask. induction a as [| x a IH]; intros [| b mask] H;
    try discriminate; [reflexivity |].
  simpl in H. unfold count_nonzero in *. simpl.
  destruct b; simpl; rewrite IH by lia; reflexivity.
Qed.

Lemma fold_xadd_fin (l : list xQ) (s : Q) :
  Forall finite l -> finite (fold_left xadd l (Fin s)).
Proof.
  intro H. revert s. induction H as [| x l Hx _ IH]; intro s; [exact I |].
  destruct x; try contradiction. simpl. apply IH.
Qed.

Lemma xmean_fin (l : list xQ) :
  Forall finite l -> l <> [] -> finite (xmean l).
Proof.
  intros H Hne. unfold xmean.
  pose proof (fold_xadd_fin l 0 H) as Hs.
  destruct (fold_left xadd l (Fin 0)); try contradiction.
  rewrite xdiv_fin; [exact I |].
  destruct l; [congruence |]. simpl length.
  rewrite Nat2Z.inj_succ. intro E.
  assert (0 < inject_Z (Z.succ (Z.of_nat (length l)))); [| lra].
  change 0 with (inject_Z 0). rewrite <- Zlt_Qlt. lia.
Qed.

Lemma bin_outputs_fin (y_true : list Q) (y_score : list xQ) (bw c : Q) :
  length y_true = length y_score ->
  exists o, bin_outputs y_true y_score bw c = Ok o /\ finite (fst o).
Proof.
  intro Hlen. unfold bin_outputs.
  destruct (count_nonzero (map (in_bin bw c) y_score) =? 0)%nat eqn:E.
  - eexists. split; [reflexivity | exact I].
  - apply Nat.eqb_neq in E. unfold select.
    rewrite !length_map, Nat.eqb_refl, Hlen, Nat.eqb_refl. cbn [bind].
    eexists. split; [reflexivity |]. cbn [fst].
    apply xmean_fin.
    + eapply Forall_impl; [| apply selected_in_bin].
      intros x. apply in_bin_fin.
    + intro Hnil.
      assert (L := selected_length y_score (map (in_bin bw c) y_score)
                     (eq_sym (length_map _ _))).
      rewrite Hnil in L. simpl in L. congruence.
Qed.

Lemma bins_loop_fin (y_true : list Q) (y_score : list xQ) (bw : Q)
  (centers : list Q) :
  length y_true = length y_score ->
  exists sm ep,
    bins_loop y_true y_score bw centers = Ok (sm, ep) /\
    length sm = length centers /\ length ep = length centers /\
    Forall finite sm.
Proof.
  intro Hlen. induction centers as [| c rest (sm & ep & E & L1 & L2 & Hf)]; simpl.
  - exists [], []. repeat split; constructor.
  - destruct (bin_outputs_fin y_true y_score bw c Hlen) as (o & Eo & Ho).
    rewrite Eo, E. cbn [bind fst snd].
    do 2 eexists. split; [reflexivity |]. simpl.
    repeat split; try lia. constructor; assumption.
Qed.

Lemma normalized_ok (y_score : list Q) :
  y_score <> [] ->
  exists scaled, normalized y_score = Ok scaled /\
                 length scaled = length y_score.
Proof.
  intro Hne.
  destruct (amin_spec y_score Hne) as (mn & Emn & _).
  destruct (amax_spec y_score Hne) as (mx & Emx & _).
  unfold normalized. rewrite Emn, Emx. cbn [bind].
  eexists. split; [reflexivity | apply length_map].
Qed.

End ReliabilityOutputs.

Lemma scaled_ok (y_score : list Q) (normalize : bool) :
  (normalize = true -> y_score <> []) ->
  exists scaled,
    (if normalize then Reliability.normalized y_score
     else Ok (map Fin y_score)) = Ok scaled /\
    length scaled = length y_score.
Proof.
  intro Hne. destruct normalize; [apply normalized_ok, Hne; reflexivity |].
  eexists. split; [reflexivity | apply length_map].
Qed.

(** For labels and scores of equal length, at least one bin and, when
    normalising, at least one score, [reliability_curve] returns two
    arrays of [bins] entries each, and no mean score in them is [nan] or
    infinite. *)
Theorem reliability_curve_outputs (y_true y_score : list Q) (bins : nat)
  (normalize : bool) :
  length y_true = length y_score -> (0 < bins)%nat ->
  (normalize = true -> y_score <> []) ->
  exists sm ep,
    Reliability.reliability_curve y_true y_score bins normalize = Ok (sm, ep) /\
    length sm = bins /\ length ep = bins /\
    Forall Reliability.finite sm.
Proof.
  intros Hlen Hbins Hne.
  destruct (scaled_ok y_score normalize Hne) as (scaled & Es & Ls).
  unfold Reliability.reliability_curve. rewrite Es. cbn [bind].
  destruct (bins =? 0)%nat eqn:E; [apply Nat.eqb_eq in E; lia |].
  destruct (bins_loop_fin y_true scaled (1 / inject_Z (Z.of_nat bins))
              (Reliability.bin_centers bins (1 / inject_Z (Z.of_nat bins))))
    as (sm & ep & El & L1 & L2 & Hf); [congruence |].
  exists sm, ep. split; [exact El |].
  unfold Reliability.bin_centers in L1, L2.
  rewrite length_map, linspace_length in L1, L2.
  repeat split; assumption.
Qed.


(** Without normalisation a score of 0, or below, lies in no bin: the
    first bin starts just above 0. *)
Theorem reliability_zero_score_in_no_bin (bins : nat) (q c : Q) :
  q <= 0 ->
  In c (Reliability.bin_centers bins (1 / inject_Z (Z.of_nat bins))) ->
  Reliability.in_bin (1 / inject_Z (Z.of_nat bins)) c (Fin q) = false.
Proof.
  intros Hq Hc. unfold Reliability.bin_centers in Hc.
  apply in_map_iff in Hc. destruct Hc as (c0 & <- & Hc0).
  apply linspace_nonneg in Hc0.
  unfold Reliability.in_bin. apply andb_false_iff. left.
  change (xltb (Fin ?a) (Fin ?b)) with (Qlt_bool a b).
  apply Qlt_bool_false_iff. lra.
Qed.

Lemma reliability_curve_outputs_witness :
  exists sm ep,
    Reliability.reliability_curve [1; 0; 1] [1 # 5; 1 # 2; 4 # 5] 5 true =
      Ok (sm, ep) /\
    length sm = 5%nat /\ length ep = 5%nat /\
    Forall Reliability.finite sm.
Proof.
  apply (reliability_curve_outputs [1; 0; 1] [1 # 5; 1 # 2; 4 # 5] 5 true).
  - reflexivity.
  - lia.
  - discriminate.
Defined.


Lemma reliability_zero_score_in_no_bin_witness :
  Forall (fun c => Reliability.in_bin (1 / inject_Z (Z.of_nat 10)) c (Fin 0) = false)
    (Reliability.bin_centers 10 (1 / inject_Z (Z.of_nat 10))).
Proof.
  apply Forall_forall. intros c Hc.
  apply (reliability_zero_score_in_no_bin 10 0 c); [unfold Qle; simpl; lia | exact Hc].
Defined.

(** ** [partial_auc]: windows *)

Section WindowFacts.
Import AUC.

Lemma mul_mask_ok (a : list Q) (m : list bool) :
  length a = length m ->
  exists a', mul_mask a m = Ok a' /\ length a' = length a.
Proof.
  intro H. unfold mul_mask. rewrite H, Nat.eqb_refl.
  eexists. split; [reflexivity |].
  rewrite length_map, length_combine, H. lia.
Qed.

Lemma scan_up_exhausted (op1 : Q) (l : list Q) (i : nat) :
  Forall (fun t => t < op1) l -> scan_up op1 i l = Raise IndexError.
Proof.
  intro H. revert i. induction H as [| t l Ht _ IH]; intro i; simpl.
  - reflexivity.
  - apply Qlt_bool_iff in Ht. rewrite Ht. apply IH.
Qed.

End WindowFacts.

(** A proper specificity window ([op1 < op2], not the whole range) on at
    least two points with as many [tpr] as [fpr] values always yields an
    area: the masked points are re-ordered before integration, so even an
    unsorted [fpr] is accepted. *)
Theorem partial_auc_window_returns (fpr tpr : list Q) (op1 op2 : Q) :
  length fpr = length tpr -> (2 <= length fpr)%nat ->
  op1 < op2 -> 0 < op1 \/ op2 < 1 ->
  exists a, AUC.partial_auc fpr tpr op1 op2 true = Ok a.
Proof.
  intros Hlen H2 Hlt Hslice.
  unfold AUC.partial_auc, AUC.partial_auc_body.
  apply Qle_bool_false_iff in Hlt. rewrite Hlt.
  assert (Es : Qlt_bool 0 op1 || Qlt_bool op2 1 = true).
  { apply orb_true_iff. rewrite !Qlt_bool_iff. exact Hslice. }
  rewrite Es. cbv zeta.
  set (mask := map (fun p => fst p && snd p)
                 (combine (map (fun f => Qle_bool (1 - op2) f) fpr)
                          (map (fun f => Qle_bool f (1 - op1)) fpr))).
  assert (Lm : length mask = length fpr).
  { unfold mask. rewrite length_map, length_combine, !length_map. lia. }
  destruct (mul_mask_ok fpr mask (eq_sym Lm)) as (f' & Ef & Lf).
  destruct (mul_mask_ok tpr mask ltac:(congruence)) as (t' & Et & Lt).
  rewrite Ef, Et. cbn [bind]. unfold AUC.metrics_auc.
  assert (E1 : (length f' =? length t')%nat = true)
    by (apply Nat.eqb_eq; congruence).
  assert (E2 : (length f' <? 2)%nat = false)
    by (apply Nat.ltb_ge; lia).
  rewrite E1, E2. simpl negb. cbv iota.
  eexists. reflexivity.
Qed.

(** A sensitivity window whose lower end no [tpr] value reaches makes the
    forward scan run off the array. *)
Theorem partial_auc_Se_out_of_reach (fpr tpr : list Q) (op1 op2 : Q) :
  op1 < op2 -> 0 < op1 \/ op2 < 1 ->
  Forall (fun t => t < op1) tpr ->
  AUC.partial_auc fpr tpr op1 op2 false = Raise IndexError.
Proof.
  intros Hlt Hslice Hall.
  unfold AUC.partial_auc, AUC.partial_auc_body.
  apply Qle_bool_false_iff in Hlt. rewrite Hlt.
  assert (Es : Qlt_bool 0 op1 || Qlt_bool op2 1 = true).
  { apply orb_true_iff. rewrite !Qlt_bool_iff. exact Hslice. }
  rewrite Es, (scan_up_exhausted op1 tpr 0 Hall). reflexivity.
Qed.

Lemma partial_auc_window_returns_witness :
  exists a, AUC.partial_auc [1; 0; 1 # 2] [1; 0; 3 # 4] (1 # 4) (3 # 4) true = Ok a.
Proof.
  apply (partial_auc_window_returns [1; 0; 1 # 2] [1; 0; 3 # 4] (1 # 4) (3 # 4)).
  - reflexivity.
  - simpl; lia.
  - reflexivity.
  - left. reflexivity.
Defined.

Lemma partial_auc_Se_out_of_reach_witness :
  AUC.partial_auc Examples.diag_fpr Examples.diag_tpr (11 # 10) (12 # 10) false =
    Raise IndexError.
Proof.
  apply (partial_auc_Se_out_of_reach Examples.diag_fpr Examples.diag_tpr
           (11 # 10) (12 # 10)).
  - reflexivity.
  - left. reflexivity.
  - repeat constructor.
Defined.

(** ** [best_ppv] and [best_npv]: no candidate *)

Section NoCandidate.
Import Predictive.

Variables (fpr tpr thresh : list Q) (Nn Np target : Q).

Lemma loop_fixed (step : locals -> nat -> result locals) (idx : list nat)
  (st : locals) :
  Forall (fun i => step st i = Ok st) idx -> loop step idx st = Ok st.
Proof.
  induction 1 as [| i idx Hi _ IH]; simpl; [reflexivity |].
  rewrite Hi. exact IH.
Qed.

Lemma ppv_step_skip (i : nat) :
  (i < length tpr)%nat -> nth i tpr 0 == 0 ->
  ppv_step fpr tpr thresh Nn Np target start i = Ok start.
Proof.
  intros Hi Hz. unfold ppv_step.
  rewrite (getitem_nth tpr i 0 Hi). cbn [bind].
  apply Qeq_bool_iff in Hz. rewrite Hz. reflexivity.
Qed.

Lemma npv_step_skip (i : nat) :
  (i < length fpr)%nat -> nth i fpr 0 == 1 ->
  npv_step fpr tpr thresh Nn Np target start i = Ok start.
Proof.
  intros Hi Hz. unfold npv_step.
  rewrite (getitem_nth fpr i 0 Hi). cbn [bind].
  assert (E : Qeq_bool (1 - nth i fpr 0) 0 = true)
    by (apply Qeq_bool_iff; rewrite Hz; ring).
  rewrite E. reflexivity.
Qed.

End NoCandidate.

(** When every [tpr] is 0 (the empty curve included) [best_ppv] finds no
    candidate and fails on its unassigned result; [best_npv] does the
    same when every [fpr] is 1.  Neither needs the other arrays for
    that. *)
Theorem best_ppv_npv_no_candidate
  (fpr tpr thresh : list Q) (Nn Np target : Q) :
  ((forall i, (i < length tpr)%nat -> nth i tpr 0 == 0) ->
   Predictive.best_ppv fpr tpr thresh Nn Np target = Raise UnboundLocalError) /\
  ((forall i, (i < length fpr)%nat -> nth i fpr 0 == 1) ->
   Predictive.best_npv fpr tpr thresh Nn Np target = Raise UnboundLocalError).
Proof.
  split; intro H.
  - unfold Predictive.best_ppv. rewrite loop_fixed; [reflexivity |].
    apply Forall_forall. intros i Hi. apply in_seq in Hi.
    apply ppv_step_skip; [lia | apply H; lia].
  - unfold Predictive.best_npv. rewrite loop_fixed; [reflexivity |].
    apply Forall_forall. intros i Hi. apply in_seq in Hi.
    apply npv_step_skip; [lia | apply H; lia].
Qed.

Lemma best_ppv_npv_no_candidate_witness :
  Predictive.best_ppv [0; 1] [0; 0] [2; 1] 5 5 1 = Raise UnboundLocalError /\
  Predictive.best_npv [1; 1] [0; 1] [2; 1] 5 5 1 = Raise UnboundLocalError.
Proof.
  split.
  - apply (proj1 (best_ppv_npv_no_candidate [0; 1] [0; 0] [2; 1] 5 5 1)).
    intros i Hi. destruct i as [| [| i]]; try reflexivity. simpl in Hi. lia.
  - apply (proj2 (best_ppv_npv_no_candidate [1; 1] [0; 1] [2; 1] 5 5 1)).
    intros i Hi. destruct i as [| [| i]]; try reflexivity. simpl in Hi. lia.
Defined.

(** ** [sigmoid_fit]: the smoothed targets *)

Section PlattFacts.
Import Platt.

Lemma filter_length_ge_1 {A : Type} (f : A -> bool) (a : A) (l : list A) :
  In a l -> f a = true -> (1 <= length (filter f l))%nat.
Proof.
  induction l as [| x l IH]; intros Hin Hf; [contradiction |].
  simpl. destruct Hin as [-> | Hin].
  - rewrite Hf. simpl. lia.
  - destruct (f x); simpl; [lia | apply IH; assumption].
Qed.

Lemma filter_length_lt {A : Type} (f : A -> bool) (a : A) (l : list A) :
  In a l -> f a = false -> (length (filter f l) < length l)%nat.
Proof.
  induction l as [| x l IH]; intros Hin Hf; [contradiction |].
  simpl. destruct Hin as [-> | Hin].
  - rewrite Hf. pose proof (filter_length_le f l). lia.
  - destruct (f x); simpl; [apply IH in Hin; [lia | exact Hf] |].
    pose proof (filter_length_le f l). lia.
Qed.

Lemma prior0_ge_1 (y : list Q) (a : Q) :
  In a y -> a <= 0 -> 1 <= prior0 y.
Proof.
  intros Hin Ha. unfold prior0.
  change 1 with (inject_Z 1). rewrite <- Zle_Qle.
  pose proof (filter_length_ge_1 (fun a => Qle_bool a 0) a y Hin
                (proj2 (Qle_bool_iff a 0) Ha)). lia.
Qed.

Lemma prior1_ge_1 (y : list Q) (a : Q) :
  In a y -> 0 < a -> 1 <= prior1 y.
Proof.
  intros Hin Ha. unfold prior1, prior0.
  pose proof (filter_length_lt (fun a => Qle_bool a 0) a y Hin
                (proj2 (Qle_bool_false_iff a 0) Ha)) as H.
  assert (E : inject_Z 1 <=
              inject_Z (Z.of_nat (length y) -
                        Z.of_nat (length (filter (fun a => Qle_bool a 0) y)))).
  { rewrite <- Zle_Qle. lia. }
  unfold Zminus in E. rewrite inject_Z_plus, inject_Z_opp in E.
  change (inject_Z 1) with 1 in E. lra.
Qed.

End PlattFacts.

(** Platt's targets leave the ends of the unit interval: the target of a
    sample with a positive label lies in [2/3, 1), that of any other
    sample in (0, 1/3], and there is one target per sample. *)
Theorem platt_targets_range (y : list Q) :
  length (Platt.targets y) = length y /\
  forall i a, nth_error y i = Some a ->
    exists T, nth_error (Platt.targets y) i = Some T /\
      (a <= 0 -> 0 < T <= 1 # 3) /\
      (0 < a -> (2 # 3) <= T < 1).
Proof.
  split; [apply length_map |].
  intros i a Hi. unfold Platt.targets. rewrite nth_error_map, Hi. simpl.
  eexists. split; [reflexivity |].
  assert (Hin : In a y) by (eapply nth_error_In, Hi).
  destruct (Qle_bool a 0) eqn:E.
  - apply Qle_bool_iff in E. pose proof (prior0_ge_1 y a Hin E) as Hp.
    split; [intros _ | intro H; lra].
    split.
    + apply Qlt_shift_div_l; lra.
    + apply Qle_shift_div_r; lra.
  - apply Qle_bool_false_iff in E. pose proof (prior1_ge_1 y a Hin E) as Hp.
    split; [intro H; lra | intros _].
    split.
    + apply Qle_shift_div_l; lra.
    + apply Qlt_shift_div_r; lra.
Qed.

Lemma pav_rocch_float64_isotonic_witness :
  exists t u,
    Permutation (PAV.argsort [3 # 10; 1 # 10; 2 # 10]) (seq 0 3) /\
    AUC.nondecreasing (in_order [3 # 10; 1 # 10; 2 # 10]
                         (PAV.argsort [3 # 10; 1 # 10; 2 # 10])) /\
    t = in_order [0; 1; 0] (PAV.argsort [3 # 10; 1 # 10; 2 # 10]) /\
    (forall fuel, (3 < fuel)%nat ->
       PAV.pav_rocch fuel PAV.float64 [0; 1; 0] [3 # 10; 1 # 10; 2 # 10] =
       Ok (Some (t, u))) /\
    length u = length t /\ length t = 3%nat /\
    AUC.nondecreasing u /\
    forall w, length w = length t -> AUC.nondecreasing w ->
      PAV.sse t u <= PAV.sse t w.
Proof.
  apply (pav_rocch_float64_isotonic [0; 1; 0] [3 # 10; 1 # 10; 2 # 10]).
  reflexivity.
Defined.
